(** * torchsde: the additive-noise SRK solver (core/methods/additive/srk.py)

    A shallow embedding of [SRKAdditive.step] and [SRKAdditive.strong_order].

    Tensor arithmetic is kept abstract: the solver is written once over an
    interface [Torch] of numeric operations, so that every structural theorem
    holds for any interpretation of the arithmetic.  Calls to the collaborators
    ([sde.f], [sde.g], [bm]) are recorded in a trace, draws of
    [torch.randn_like] thread a generator state, and Python exceptions are
    explicit results. *)

From Stdlib Require Import String List Bool Arith Lia QArith Qreals Reals Lra.
Import ListNotations.

Set Implicit Arguments.
Close Scope R_scope.
Close Scope Q_scope.
Open Scope nat_scope.

(** ** Numeric interface *)

(** What [step] uses from Python floats and from torch.  [scalar] stands for
    the time and step-size values (a Python float or a 0-dim tensor),
    [tensor] for one block of the state, [operator] for one block of the
    value of [sde.g], [rng] for the state of torch's default generator.
    The operations are total: the shape errors torch can raise are not
    modelled. *)
Class Torch : Type := {
  scalar : Type;
  tensor : Type;
  operator : Type;
  rng : Type;
  lit : Q -> scalar;                          (* a numeric literal *)
  sadd : scalar -> scalar -> scalar;          (* a + b *)
  smul : scalar -> scalar -> scalar;          (* a * b *)
  sdiv : scalar -> scalar -> scalar;          (* a / b *)
  ssqrt : scalar -> scalar;                   (* math.sqrt / torch.sqrt *)
  sgt : scalar -> scalar -> bool;             (* truth value of a > b *)
  tadd : tensor -> tensor -> tensor;          (* x + y *)
  tsub : tensor -> tensor -> tensor;          (* x - y *)
  scale_l : scalar -> tensor -> tensor;       (* a * x *)
  scale_r : tensor -> scalar -> tensor;       (* x * a *)
  tdiv : tensor -> scalar -> tensor;          (* x / a *)
  to : tensor -> tensor -> tensor;            (* x.to(other) *)
  randn_like : tensor -> rng -> tensor * rng; (* torch.randn_like(x) *)
  batch_mvp : operator -> tensor -> tensor    (* misc.batch_mvp(m, v) *)
}.

(** ** Exceptions, results *)

(** The spec calls the failure of [assert dt > 0] [InvalidStepSize]. *)
Inductive exn : Type :=
| AssertionError   (* raised by [assert dt > 0] *)
| IndexError.      (* raised by a subscript out of range *)

Inductive result (A : Type) : Type :=
| Ok (a : A)
| Raise (e : exn).

Arguments Ok {A} a.
Arguments Raise {A} e.

(** ** Tableau *)

(** The module-level names imported from [tableaus.sra1]. *)
Record tableau `{Torch} : Type := {
  STAGES : nat;
  C0 : list scalar;
  C1 : list scalar;
  A0 : list (list scalar);
  B0 : list (list scalar);
  alpha : list scalar;
  beta1 : list scalar;
  beta2 : list scalar
}.

(** Python's [zip] of four sequences: as long as the shortest one. *)
Definition zip4 {A B C D} (a : list A) (b : list B) (c : list C) (d : list D)
  : list (A * (B * (C * D))) :=
  combine a (combine b (combine c d)).

Section Solver.

Context {T : Torch}.

(** ** The world: collaborator calls and the random generator *)

(** The calls [step] itself makes to its collaborators.  What
    [utils.compute_trapezoidal_approx] asks of the Brownian source on its own
    is not recorded. *)
Inductive event : Type :=
| EvF (t : scalar) (y : list tensor)    (* sde.f(t, y) *)
| EvG (t : scalar) (y : list tensor)    (* sde.g(t, y) *)
| EvBm (t : scalar).                    (* bm(t) *)

Record world : Type := {
  trace : list event;   (* oldest call first *)
  gen : rng
}.

Definition M (A : Type) : Type := world -> result A * world.

Definition ret {A} (a : A) : M A := fun w => (Ok a, w).

Definition raise {A} (e : exn) : M A := fun w => (Raise e, w).

Definition bind {A B} (m : M A) (k : A -> M B) : M B :=
  fun w =>
    match m w with
    | (Ok a, w') => k a w'
    | (Raise e, w') => (Raise e, w')
    end.

Notation "x <- m ;; k" := (bind m (fun x => k))
  (at level 100, m at next level, right associativity).
Notation "' p <- m ;; k" := (bind m (fun x => let 'p := x in k))
  (at level 100, p pattern, m at next level, right associativity).

Definition log (e : event) : M unit :=
  fun w => (Ok tt, {| trace := trace w ++ [e]; gen := gen w |}).

Definition draw (x : tensor) : M tensor :=
  fun w => let (z, r) := randn_like x (gen w) in
           (Ok z, {| trace := trace w; gen := r |}).

(** [assert c] *)
Definition assert (c : bool) : M unit :=
  if c then ret tt else raise AssertionError.

(** [l[i]] for a non-negative [i] *)
Definition index {A} (l : list A) (i : nat) : M A :=
  match nth_error l i with
  | Some x => ret x
  | None => raise IndexError
  end.

(** A generator expression consumed by [tuple(...)]: the body runs once per
    element, in order. *)
Fixpoint mapM {A B} (k : A -> M B) (l : list A) : M (list B) :=
  match l with
  | [] => ret []
  | x :: l' => y <- k x ;; ys <- mapM k l' ;; ret (y :: ys)
  end.

(** A [for] loop over [l] updating the local variables [s]. *)
Fixpoint foldM {A St} (body : St -> A -> M St) (l : list A) (s : St)
  : M St :=
  match l with
  | [] => ret s
  | x :: l' => s' <- body s x ;; foldM body l' s'
  end.

(** ** The solver object *)

(** The collaborators [sde.f], [sde.g] and [bm] are taken as returning
    normally: an exception raised inside one of them, which [step] would let
    through, is not modelled. *)
Record SRKAdditive : Type := {
  sde_f : scalar -> list tensor -> list tensor;
  sde_g : scalar -> list tensor -> list operator;
  bm : scalar -> list tensor;
  options : list (string * bool);
  trapezoidal_approx : bool
}.

(** [key in options] and [options[key]]; option values are kept by their
    truth value, which is all [__init__] looks at. *)
Fixpoint lookup (key : string) (d : list (string * bool)) : option bool :=
  match d with
  | [] => None
  | (k, v) :: d' => if String.eqb k key then Some v else lookup key d'
  end.

(** [SRKAdditive.__init__] (lines 40-47); the arguments that the base class
    only stores and [step] never reads are left out. *)
Definition init (f : scalar -> list tensor -> list tensor)
    (g : scalar -> list tensor -> list operator)
    (b : scalar -> list tensor) (opts : list (string * bool)) : SRKAdditive :=
  {| sde_f := f; sde_g := g; bm := b; options := opts;
     trapezoidal_approx :=
       match lookup "trapezoidal_approx" opts with
       | Some v => if negb v then false else true
       | None => true
       end |}.

(** [SRKAdditive.strong_order] (lines 89-91) *)
Definition strong_order (self : SRKAdditive) : scalar := lit 1.5.

Definition call_f (self : SRKAdditive) (t : scalar) (y : list tensor)
  : M (list tensor) :=
  _ <- log (EvF t y) ;; ret (sde_f self t y).

Definition call_g (self : SRKAdditive) (t : scalar) (y : list tensor)
  : M (list operator) :=
  _ <- log (EvG t y) ;; ret (sde_g self t y).

Definition call_bm (self : SRKAdditive) (t : scalar) : M (list tensor) :=
  _ <- log (EvBm t) ;; ret (bm self t).

(** Modelled from the spec: [utils.compute_trapezoidal_approx] is not among
    the sources.  The spec (4.2, trapezoidal mode) says its value is fully
    determined by the Brownian path and that it introduces no extra
    randomness, so it is a function of the Brownian source and of the
    arguments it is called with, and it does not touch the generator. *)
Variable compute_trapezoidal_approx :
  (scalar -> list tensor) -> scalar -> list tensor -> scalar -> scalar ->
  list tensor.

Variable tab : tableau.

(** ** [step], lines 49-87 *)

(** Line 54: [I_k]. *)
Definition brownian_increment (self : SRKAdditive) (t0 : scalar)
    (y0 : list tensor) (dt : scalar) : M (list tensor) :=
  bm_nexts <- call_bm self (sadd t0 dt) ;;
  bm_curs <- call_bm self t0 ;;
  mapM (fun '(bm_next, bm_cur) =>
          y00 <- index y0 0 ;;
          ret (to (tsub bm_next bm_cur) y00))
       (combine bm_nexts bm_curs).

(** Lines 55-58: [I_k0]. *)
Definition second_integral (self : SRKAdditive) (t0 : scalar)
    (y0 : list tensor) (dt sqrt_dt : scalar) (I_k : list tensor)
  : M (list tensor) :=
  if trapezoidal_approx self then
    ret (compute_trapezoidal_approx (bm self) t0 y0 dt sqrt_dt)
  else
    mapM (fun delta_bm_ =>
            z <- draw delta_bm_ ;;
            ret (scale_l (sdiv dt (lit 2))
                   (tadd delta_bm_
                      (tdiv (scale_r z sqrt_dt) (ssqrt (lit 3))))))
         I_k.

(** Lines 52-58, the [with torch.no_grad()] block. *)
Definition stochastic_integrals (self : SRKAdditive) (t0 : scalar)
    (y0 : list tensor) (dt : scalar) : M (list tensor * list tensor) :=
  let sqrt_dt := ssqrt dt in
  I_k <- brownian_increment self t0 y0 dt ;;
  I_k0 <- second_integral self t0 y0 dt sqrt_dt I_k ;;
  ret (I_k, I_k0).

(** Lines 65-71: one pass of the loop over [j]. *)
Definition coupling_body (self : SRKAdditive) (t0 : scalar)
    (y0 : list tensor) (dt : scalar) (I_k0 : list tensor)
    (H0 : list (list tensor)) (i : nat) (H0i : list tensor) (j : nat)
  : M (list tensor) :=
  c0 <- index (C0 tab) j ;;
  h <- index H0 j ;;
  f_eval <- call_f self (sadd t0 (smul c0 dt)) h ;;
  c1 <- index (C1 tab) j ;;
  g_eval <- call_g self (sadd t0 (smul c1 dt)) y0 ;;
  mapM (fun '(H0i_, (f_eval_, (g_eval_, I_k0_))) =>
          a_row <- index (A0 tab) i ;;
          a <- index a_row j ;;
          b_row <- index (B0 tab) i ;;
          b <- index b_row j ;;
          ret (tadd (tadd H0i_ (scale_r (scale_l a f_eval_) dt))
                    (tdiv (scale_l b (batch_mvp g_eval_ I_k0_)) dt)))
       (zip4 H0i f_eval g_eval I_k0).

(** Lines 63-86: one pass of the loop over [i]; the loop variables are
    [(H0, y1)]. *)
Definition stage_body (self : SRKAdditive) (t0 : scalar)
    (y0 : list tensor) (dt : scalar) (I_k I_k0 : list tensor)
    (s : list (list tensor) * list tensor) (i : nat)
  : M (list (list tensor) * list tensor) :=
  let '(H0, y1) := s in
  H0i <- foldM (coupling_body self t0 y0 dt I_k0 H0 i) (seq 0 i) y0 ;;
  let H0 := H0 ++ [H0i] in
  c0 <- index (C0 tab) i ;;
  f_eval <- call_f self (sadd t0 (smul c0 dt)) H0i ;;
  c1 <- index (C1 tab) i ;;
  g_eval <- call_g self (sadd t0 (smul c1 dt)) y0 ;;
  g_weight <- mapM (fun '(I_k_, I_k0_) =>
                      b1 <- index (beta1 tab) i ;;
                      b2 <- index (beta2 tab) i ;;
                      ret (tadd (scale_l b1 I_k_)
                                (tdiv (scale_l b2 I_k0_) dt)))
                   (combine I_k I_k0) ;;
  y1 <- mapM (fun '(y1_, (f_eval_, (g_eval_, g_weight_))) =>
                a <- index (alpha tab) i ;;
                ret (tadd (tadd y1_ (scale_r (scale_l a f_eval_) dt))
                          (batch_mvp g_eval_ g_weight_)))
             (zip4 y1 f_eval g_eval g_weight) ;;
  ret (H0, y1).

(** Lines 60-87. *)
Definition stage_loop (self : SRKAdditive) (t0 : scalar)
    (y0 : list tensor) (dt : scalar) (I_k I_k0 : list tensor)
  : M (scalar * list tensor) :=
  let t1 := sadd t0 dt in
  '(_, y1) <- foldM (stage_body self t0 y0 dt I_k I_k0)
                    (seq 0 (STAGES tab)) ([], y0) ;;
  ret (t1, y1).

Definition step (self : SRKAdditive) (t0 : scalar) (y0 : list tensor)
    (dt : scalar) : M (scalar * list tensor) :=
  _ <- assert (sgt dt (lit 0)) ;;
  '(I_k, I_k0) <- stochastic_integrals self t0 y0 dt ;;
  stage_loop self t0 y0 dt I_k I_k0.

End Solver.

(** ** Observations on worlds and traces *)

Section Observations.

Context {T : Torch}.

(** The world after the calls [evs] have been made, no sample drawn. *)
Definition emit (evs : list event) (w : world) : world :=
  {| trace := trace w ++ evs; gen := gen w |}.





(** The state argument of a diffusion call is [y0]. *)
Definition diffusion_at_y0 (y0 : list tensor) (e : event) : Prop :=
  match e with EvG _ y => y = y0 | _ => True end.


(** [G] maps every noise vector to the tensor [zero]. *)
Definition zero_operator (zero : tensor) (G : operator) : Prop :=
  forall v, batch_mvp G v = zero.

(** Every call that [m] adds to a trace satisfies [P]. *)
Definition calls_satisfy {A} (P : event -> Prop) (m : M A) : Prop :=
  forall w, Forall P (trace w) -> Forall P (trace (snd (m w))).

(** The outcome of [m] does not depend on the world it starts from, and [m]
    leaves the generator as it found it. *)
Definition generator_free {A} (m : M A) : Prop :=
  forall w1 w2, fst (m w1) = fst (m w2) /\ gen (snd (m w1)) = gen w1.

(** The successive [randn_like] samples for the blocks of [I_k], with the
    generator state they leave. *)
Fixpoint normal_draws (I_k : list tensor) (r : rng) : list tensor * rng :=
  match I_k with
  | [] => ([], r)
  | x :: rest =>
      let (z, r1) := randn_like x r in
      let (zs, r2) := normal_draws rest r1 in
      (z :: zs, r2)
  end.

(** ** Tableau shape *)

Definition coef (l : list scalar) (i : nat) : scalar := nth i l (lit 0).

Definition coef2 (m : list (list scalar)) (i j : nat) : scalar :=
  nth j (nth i m []) (lit 0).

(** The shape section 4.1 of the spec gives the tableau: vectors of length
    [S], and coupling entries for every [j < i < S]. *)
Record tableau_wf (tab : tableau) : Prop := {
  wf_C0 : STAGES tab <= length (C0 tab);
  wf_C1 : STAGES tab <= length (C1 tab);
  wf_alpha : STAGES tab <= length (alpha tab);
  wf_beta1 : STAGES tab <= length (beta1 tab);
  wf_beta2 : STAGES tab <= length (beta2 tab);
  wf_A0 : forall i j, j < i -> i < STAGES tab ->
            j < length (nth i (A0 tab) []);
  wf_B0 : forall i j, j < i -> i < STAGES tab ->
            j < length (nth i (B0 tab) [])
}.

(** Modelled from the spec: the module [tableaus.sra1] is not among the
    sources.  The spec names the scheme (Roessler's SRA1) and fixes the shape
    of its tables; the entries are the published ones.  The solver is
    verified for an arbitrary tableau, this one serves as the concrete
    instance. *)
Definition sra1 : tableau :=
  {| STAGES := 2;
     C0 := [lit 0; lit (3 # 4)];
     C1 := [lit 1; lit 0];
     A0 := [[]; [lit (3 # 4)]];
     B0 := [[]; [lit (3 # 2)]];
     alpha := [lit (1 # 3); lit (2 # 3)];
     beta1 := [lit 1; lit 0];
     beta2 := [lit (-1); lit 1] |}.

End Observations.

(** ** The stage iterator as the spec writes it (section 4.3) *)

Section StageIterator.

Context {T : Torch}.

Variable f : scalar -> list tensor -> list tensor.
Variable g : scalar -> list tensor -> list operator.
Variable tab : tableau.
Variables (t0 : scalar) (y0 : list tensor) (dt : scalar).
Variables (I_k I_k0 : list tensor).

(** [f_j := sde.drift(t0 + C0[j]*dt, H0[j])] *)
Definition drift_at (H0 : list (list tensor)) (j : nat) : list tensor :=
  f (sadd t0 (smul (coef (C0 tab) j) dt)) (nth j H0 []).

(** [g_j := sde.diffusion(t0 + C1[j]*dt, y0)] *)
Definition diffusion_at (j : nat) : list operator :=
  g (sadd t0 (smul (coef (C1 tab) j) dt)) y0.

(** [H0i := H0i + A0[i][j]*f_j*dt + B0[i][j]*(g_j applied to I_k0) / dt],
    per block *)
Definition spec_couple (H0 : list (list tensor)) (i : nat)
    (H0i : list tensor) (j : nat) : list tensor :=
  map (fun '(h, (f_j, (g_j, k0))) =>
         tadd (tadd h (scale_r (scale_l (coef2 (A0 tab) i j) f_j) dt))
              (tdiv (scale_l (coef2 (B0 tab) i j) (batch_mvp g_j k0)) dt))
      (zip4 H0i (drift_at H0 j) (diffusion_at j) I_k0).

(** [H0i := y0; for j in 0..i-1: ...] *)
Definition spec_stage_value (H0 : list (list tensor)) (i : nat)
  : list tensor :=
  fold_left (spec_couple H0 i) (seq 0 i) y0.

(** [g_weight := beta1[i]*I_k + beta2[i]*I_k0/dt], per block *)
Definition spec_g_weight (i : nat) : list tensor :=
  map (fun '(a, b) =>
         tadd (scale_l (coef (beta1 tab) i) a)
              (tdiv (scale_l (coef (beta2 tab) i) b) dt))
      (combine I_k I_k0).

(** One pass of the loop over [i], on the pair [(H0, y1)]. *)
Definition spec_stage (s : list (list tensor) * list tensor) (i : nat)
  : list (list tensor) * list tensor :=
  let H0i := spec_stage_value (fst s) i in
  let f_i := f (sadd t0 (smul (coef (C0 tab) i) dt)) H0i in
  (fst s ++ [H0i],
   map (fun '(y, (f_, (g_, w_))) =>
          tadd (tadd y (scale_r (scale_l (coef (alpha tab) i) f_) dt))
               (batch_mvp g_ w_))
       (zip4 (snd s) f_i (diffusion_at i) (spec_g_weight i))).

Definition spec_loop : list (list tensor) * list tensor :=
  fold_left spec_stage (seq 0 (STAGES tab)) ([], y0).

(** [compute_step(sde, t0, y0, dt, I_k, I_k0, tableau)], with the next time *)
Definition compute_step : scalar * list tensor :=
  (sadd t0 dt, snd spec_loop).

(** The collaborator calls of the loop over [j] of stage [i]. *)
Definition coupling_events (H0 : list (list tensor)) (i : nat)
  : list event :=
  flat_map (fun j =>
              [EvF (sadd t0 (smul (coef (C0 tab) j) dt)) (nth j H0 []);
               EvG (sadd t0 (smul (coef (C1 tab) j) dt)) y0])
           (seq 0 i).

(** The collaborator calls of one pass of the loop over [i]. *)
Definition stage_events (H0 : list (list tensor)) (i : nat) : list event :=
  coupling_events H0 i ++
  [EvF (sadd t0 (smul (coef (C0 tab) i) dt)) (spec_stage_value H0 i);
   EvG (sadd t0 (smul (coef (C1 tab) i) dt)) y0].

(** The collaborator calls of the passes [l], started on [(H0, y1) = s]. *)
Fixpoint loop_events (l : list nat)
    (s : list (list tensor) * list tensor) : list event :=
  match l with
  | [] => []
  | i :: l' => stage_events (fst s) i ++ loop_events l' (spec_stage s i)
  end.

End StageIterator.

(** ** The deterministic explicit Runge-Kutta update

    The update built from [A0], [C0] and [alpha] alone: the stage iterator
    with every diffusion term left out. *)

Section RungeKutta.

Context {T : Torch}.

Variable f : scalar -> list tensor -> list tensor.
Variable stages : nat.
Variable c0 : list scalar.
Variable a0 : list (list scalar).
Variable al : list scalar.
Variables (t0 : scalar) (y0 : list tensor) (dt : scalar).

Definition rk_couple (H0 : list (list tensor)) (i : nat)
    (H0i : list tensor) (j : nat) : list tensor :=
  map (fun '(h, f_j) => tadd h (scale_r (scale_l (coef2 a0 i j) f_j) dt))
      (combine H0i (f (sadd t0 (smul (coef c0 j) dt)) (nth j H0 []))).

Definition rk_stage_value (H0 : list (list tensor)) (i : nat)
  : list tensor :=
  fold_left (rk_couple H0 i) (seq 0 i) y0.

Definition rk_stage (s : list (list tensor) * list tensor) (i : nat)
  : list (list tensor) * list tensor :=
  let H0i := rk_stage_value (fst s) i in
  (fst s ++ [H0i],
   map (fun '(y, f_) => tadd y (scale_r (scale_l (coef al i) f_) dt))
       (combine (snd s) (f (sadd t0 (smul (coef c0 i) dt)) H0i))).

Definition rk_step : scalar * list tensor :=
  (sadd t0 dt, snd (fold_left rk_stage (seq 0 stages) ([], y0))).

End RungeKutta.

(** ** Interpretations of the numeric interface *)

(** Truth value of [a > b] on the reals. *)
Definition Rgtb (a b : R) : bool :=
  if Rlt_dec b a then true else false.

(** Ideal arithmetic: floats read as real numbers, every block a scalar
    tensor, the generator a list of samples still to be handed out. *)
Definition RealTorch : Torch :=
  {| scalar := R; tensor := R; operator := R; rng := list R;
     lit := Q2R;
     sadd := Rplus; smul := Rmult; sdiv := Rdiv; ssqrt := sqrt; sgt := Rgtb;
     tadd := Rplus; tsub := Rminus;
     scale_l := Rmult; scale_r := Rmult; tdiv := Rdiv;
     to := fun x _ => x;
     randn_like := fun _ r => (hd 0%R r, tl r);
     batch_mvp := Rmult |}.

Inductive dtype : Type := float32 | float64.

Inductive device : Type := cpu | cuda.

(** A real-valued scalar tensor that carries its dtype and device. *)
Record typed : Type := {
  t_dtype : dtype;
  t_device : device;
  t_value : R
}.

Definition numeric_type (x : typed) : dtype * device :=
  (t_dtype x, t_device x).

(** torch's type promotion between the two floating dtypes *)
Definition promote (a b : dtype) : dtype :=
  match a, b with
  | float32, float32 => float32
  | _, _ => float64
  end.

Definition typed_op (op : R -> R -> R) (x y : typed) : typed :=
  {| t_dtype := promote (t_dtype x) (t_dtype y);
     t_device := t_device x;
     t_value := op (t_value x) (t_value y) |}.

Definition typed_scale (op : R -> R) (x : typed) : typed :=
  {| t_dtype := t_dtype x; t_device := t_device x; t_value := op (t_value x) |}.

(** [x.to(other)]: the value of [x] with the dtype and device of [other] *)
Definition typed_to (x other : typed) : typed :=
  {| t_dtype := t_dtype other; t_device := t_device other;
     t_value := t_value x |}.

Definition TypedTorch : Torch :=
  {| scalar := R; tensor := typed; operator := typed; rng := list R;
     lit := Q2R;
     sadd := Rplus; smul := Rmult; sdiv := Rdiv; ssqrt := sqrt; sgt := Rgtb;
     tadd := typed_op Rplus; tsub := typed_op Rminus;
     scale_l := fun a => typed_scale (Rmult a);
     scale_r := fun x a => typed_scale (fun v => Rmult v a) x;
     tdiv := fun x a => typed_scale (fun v => Rdiv v a) x;
     to := typed_to;
     randn_like := fun x r => (typed_scale (fun _ => hd 0%R r) x, tl r);
     batch_mvp := typed_op Rmult |}.

(** ** Sample collaborators *)

(** Modelled from the spec: a stand-in for [utils.compute_trapezoidal_approx]
    (not among the sources), the trapezoidal rule of section 4.2 on the two
    end points of the step: [dt/2 * (W(t0+dt) - W(t0))] per block. *)
Definition one_panel (b : R -> list R) (t0 : R) (y0 : list R)
    (dt sqrt_dt : R) : list R :=
  map (fun '(n, c) => (dt / 2 * (n - c))%R) (combine (b (t0 + dt)%R) (b t0)).

(** drift [f(t, y) = y] *)
Definition linear_drift (t : R) (y : list R) : list R := y.

(** drift that returns no block at all *)
Definition empty_drift (t : R) (y : list R) : list R := [].

(** diffusion [g(t, y) = t] in every block *)
Definition time_diffusion (t : R) (y : list R) : list R :=
  map (fun _ => t) y.

(** diffusion [g(t, y) = 1] in every block *)
Definition constant_diffusion (t : R) (y : list R) : list R :=
  map (fun _ => 1%R) y.

(** diffusion [g(t, y) = 0] in every block *)
Definition zero_diffusion (t : R) (y : list R) : list R :=
  map (fun _ => 0%R) y.

(** a one-block Brownian source with [W(t) = t] *)
Definition ramp_path (t : R) : list R := [t].

Definition real_solver (f g : R -> list R -> list R)
    (opts : list (string * bool)) : @SRKAdditive RealTorch :=
  @init RealTorch f g ramp_path opts.

(** the option mapping that selects the Gaussian surrogate *)
Definition gaussian_options : list (string * bool) :=
  [("trapezoidal_approx"%string, false)].

Definition real_world (samples : list R) : @world RealTorch :=
  @Build_world RealTorch [] samples.

(** a two-block state of mixed precision and a double-precision source *)
Definition mixed_state : list typed :=
  [ {| t_dtype := float32; t_device := cpu; t_value := 0%R |};
    {| t_dtype := float64; t_device := cpu; t_value := 0%R |} ].

Definition double_path (t : R) : list typed :=
  [ {| t_dtype := float64; t_device := cpu; t_value := t |};
    {| t_dtype := float64; t_device := cpu; t_value := t |} ].

Definition typed_solver : @SRKAdditive TypedTorch :=
  @init TypedTorch (fun _ y => y) (fun _ y => y) double_path [].

(** ** Further observations on [step] *)

Section FurtherObservations.

Context {T : Torch}.

(** The time of a drift or diffusion call is a node of the step:
    [t0 + c*dt] with [c] an entry of [C0] for the drift and of [C1] for the
    diffusion.  Nothing is said of the Brownian source, which the
    trapezoidal rule also queries on its own. *)
Definition at_tableau_node (tab : tableau) (t0 dt : scalar) (e : event)
  : Prop :=
  match e with
  | EvF t _ => exists c, In c (C0 tab) /\ t = sadd t0 (smul c dt)
  | EvG t _ => exists c, In c (C1 tab) /\ t = sadd t0 (smul c dt)
  | EvBm _ => True
  end.

(** The update of lines 75-86 for the first stage, started on [y1 = y0]:
    [y0 + alpha[0]*f(t0+C0[0]*dt, y0)*dt + g(t0+C1[0]*dt, y0) applied to
    (beta1[0]*I_k + beta2[0]*I_k0/dt)], per block. *)
Definition euler_maruyama (f : scalar -> list tensor -> list tensor)
    (g : scalar -> list tensor -> list operator) (tab : tableau)
    (t0 : scalar) (y0 : list tensor) (dt : scalar)
    (I_k I_k0 : list tensor) : list tensor :=
  map (fun '(y, (f_, (g_, w_))) =>
         tadd (tadd y (scale_r (scale_l (coef (alpha tab) 0) f_) dt))
              (batch_mvp g_ w_))
      (zip4 y0
         (f (sadd t0 (smul (coef (C0 tab) 0) dt)) y0)
         (g (sadd t0 (smul (coef (C1 tab) 0) dt)) y0)
         (map (fun '(a, b) =>
                 tadd (scale_l (coef (beta1 tab) 0) a)
                      (tdiv (scale_l (coef (beta2 tab) 0) b) dt))
              (combine I_k I_k0))).

(** The [S] drift calls and [S] diffusion calls at the stage values [H0]. *)
Definition node_calls (tab : tableau) (t0 : scalar) (y0 : list tensor)
    (dt : scalar) (H0 : list (list tensor)) : list event :=
  flat_map (fun i =>
              [EvF (sadd t0 (smul (coef (C0 tab) i) dt)) (nth i H0 []);
               EvG (sadd t0 (smul (coef (C1 tab) i) dt)) y0])
           (seq 0 (STAGES tab)).

(** The loop variables [(H0, y1)] after [a] passes, when nothing was
    truncated: [a] stage values, each with the blocks of [y0], and a running
    state with the blocks of [y0]. *)
Definition shaped (y0 : list tensor) (a : nat)
    (s : list (list tensor) * list tensor) : Prop :=
  length (fst s) = a /\
  Forall (fun h => length h = length y0) (fst s) /\
  length (snd s) = length y0.

(** The update built from [C1], [beta1] and [beta2] alone: the final
    combination of every stage with the drift term left out,
    [y1 := y1 + g(t0 + C1[i]*dt, y0) applied to
    (beta1[i]*I_k + beta2[i]*I_k0/dt)] per block, for [i = 0..S-1]. *)
Definition diffusion_pass (g : scalar -> list tensor -> list operator)
    (tab : tableau) (t0 : scalar) (y0 : list tensor) (dt : scalar)
    (I_k I_k0 : list tensor) (y1 : list tensor) (i : nat) : list tensor :=
  map (fun '(y, (g_, w_)) => tadd y (batch_mvp g_ w_))
      (combine y1
         (combine (g (sadd t0 (smul (coef (C1 tab) i) dt)) y0)
            (map (fun '(a, b) =>
                    tadd (scale_l (coef (beta1 tab) i) a)
                         (tdiv (scale_l (coef (beta2 tab) i) b) dt))
                 (combine I_k I_k0)))).

Definition diffusion_update (g : scalar -> list tensor -> list operator)
    (tab : tableau) (t0 : scalar) (y0 : list tensor) (dt : scalar)
    (I_k I_k0 : list tensor) : list tensor :=
  fold_left (diffusion_pass g tab t0 y0 dt I_k I_k0)
    (seq 0 (STAGES tab)) y0.

(** A one-stage tableau, for the single-stage case of the loop. *)
Definition one_stage : tableau :=
  {| STAGES := 1;
     C0 := [lit 0]; C1 := [lit 0];
     A0 := []; B0 := [];
     alpha := [lit 1]; beta1 := [lit 1]; beta2 := [lit 0] |}.

End FurtherObservations.

(** drift [f(t, y) = 0] in every block *)
Definition zero_drift (t : R) (y : list R) : list R :=
  map (fun _ => 0%R) y.

(** a Brownian source without blocks *)
Definition empty_path (t : R) : list R := [].

(** a solver on the reals over a chosen Brownian source *)
Definition real_solver_on (b : R -> list R) (f g : R -> list R -> list R)
    (opts : list (string * bool)) : @SRKAdditive RealTorch :=
  @init RealTorch f g b opts.

(** ** Block counts under [zip] *)

Section BlockCounts.

Context {T : Torch}.

(** The blocks left of a running state of [m] blocks after the final
    combination of stage [i] (lines 83-86): [zip] stops at the shortest of
    [y1], the drift evaluation at the stage value [H0[i]], the diffusion
    evaluation at [y0] and [g_weight], itself as short as the shorter of
    [I_k] and [I_k0]. *)
Definition stage_blocks (f : scalar -> list tensor -> list tensor)
    (g : scalar -> list tensor -> list operator) (tab : tableau)
    (t0 : scalar) (y0 : list tensor) (dt : scalar)
    (I_k I_k0 : list tensor) (H0 : list (list tensor)) (m i : nat) : nat :=
  Nat.min m
    (Nat.min
       (length (f (sadd t0 (smul (coef (C0 tab) i) dt)) (nth i H0 [])))
       (Nat.min
          (length (g (sadd t0 (smul (coef (C1 tab) i) dt)) y0))
          (Nat.min (length I_k) (length I_k0)))).


End BlockCounts.



(** * Theorems *)

(** ** Running the monad *)

Unset Implicit Arguments.

Section MonadFacts.

Context {T : Torch}.

Lemma bind_ok {A B} {m : M A} (k : A -> M B) {w a w'} :
  m w = (Ok a, w') -> bind m k w = k a w'.
Proof. unfold bind. intros ->. reflexivity. Qed.

Lemma bind_raise {A B} {m : M A} (k : A -> M B) {w e w'} :
  m w = (Raise e, w') -> bind m k w = (Raise e, w').
Proof. unfold bind. intros ->. reflexivity. Qed.

Lemma emit_nil (w : world) : emit [] w = w.
Proof. destruct w. unfold emit. simpl. now rewrite app_nil_r. Qed.

Lemma emit_emit (e1 e2 : list event) w :
  emit e2 (emit e1 w) = emit (e1 ++ e2) w.
Proof. unfold emit. simpl. now rewrite app_assoc. Qed.

Lemma call_f_run self t y w :
  call_f self t y w = (Ok (sde_f self t y), emit [EvF t y] w).
Proof. reflexivity. Qed.

Lemma call_g_run self t y w :
  call_g self t y w = (Ok (sde_g self t y), emit [EvG t y] w).
Proof. reflexivity. Qed.

Lemma call_bm_run self t w :
  call_bm self t w = (Ok (bm self t), emit [EvBm t] w).
Proof. reflexivity. Qed.

Lemma index_run {A} (l : list A) i d w :
  i < length l -> index l i w = (Ok (nth i l d), w).
Proof.
  intros Hi. unfold index.
  destruct (nth_error l i) as [x|] eqn:E.
  - now rewrite (nth_error_nth _ _ d E).
  - apply nth_error_None in E. lia.
Qed.

(** A generator whose body neither fails nor touches the world is a [map]. *)
Lemma mapM_run {A B} (k : A -> M B) (k' : A -> B) l w :
  (forall x, In x l -> k x w = (Ok (k' x), w)) ->
  mapM k l w = (Ok (map k' l), w).
Proof.
  induction l as [|x l IH]; intros Hk; simpl.
  - reflexivity.
  - rewrite (bind_ok _ (Hk x (or_introl eq_refl))).
    rewrite (bind_ok _ (IH (fun y Hy => Hk y (or_intror Hy)))).
    reflexivity.
Qed.

(** A loop whose passes succeed, each adding its own calls to the trace. *)
Lemma foldM_run {A St} (body : St -> A -> M St) (pure : St -> A -> St)
    (evs : A -> list event) l :
  (forall s x w, In x l -> body s x w = (Ok (pure s x), emit (evs x) w)) ->
  forall s w,
    foldM body l s w = (Ok (fold_left pure l s), emit (flat_map evs l) w).
Proof.
  induction l as [|x l IH]; intros Hb s w; simpl.
  - now rewrite emit_nil.
  - rewrite (bind_ok _ (Hb s x w (or_introl eq_refl))).
    rewrite IH by (intros; apply Hb; now right).
    now rewrite emit_emit.
Qed.

End MonadFacts.

(** ** The stage loop runs as the spec's iterator *)

Section StageRun.

Context {T : Torch}.

Variable tab : tableau.
Variable self : SRKAdditive.
Variables (t0 : scalar) (y0 : list tensor) (dt : scalar).
Variables (I_k I_k0 : list tensor).

Hypothesis Hwf : tableau_wf tab.

Let f := sde_f self.
Let g := sde_g self.

Lemma row_in_range {A} (m : list (list A)) i j :
  j < length (nth i m []) -> i < length m.
Proof.
  intros Hj. destruct (Nat.lt_ge_cases i (length m)) as [|Hge]; [assumption|].
  rewrite (nth_overflow m [] Hge) in Hj. simpl in Hj. lia.
Qed.

Lemma index2_run (m : list (list scalar)) i j w :
  j < length (nth i m []) ->
  bind (index m i) (fun row => index row j) w = (Ok (coef2 m i j), w).
Proof.
  intros Hj.
  rewrite (bind_ok _ (index_run m i [] w (row_in_range m i j Hj))).
  apply index_run, Hj.
Qed.

Lemma coupling_body_run H0 i H0i j w :
  j < i -> i < STAGES tab -> j < length H0 ->
  coupling_body tab self t0 y0 dt I_k0 H0 i H0i j w =
  (Ok (spec_couple f g tab t0 y0 dt I_k0 H0 i H0i j),
   emit [EvF (sadd t0 (smul (coef (C0 tab) j) dt)) (nth j H0 []);
         EvG (sadd t0 (smul (coef (C1 tab) j) dt)) y0] w).
Proof.
  intros Hji HiS HjH. unfold coupling_body.
  pose proof (wf_C0 Hwf) as HC0. pose proof (wf_C1 Hwf) as HC1.
  rewrite (bind_ok _ (index_run (C0 tab) j (lit 0) w ltac:(lia))).
  rewrite (bind_ok _ (index_run H0 j [] w HjH)).
  rewrite (bind_ok _ (call_f_run _ _ _ _)).
  rewrite (bind_ok _ (index_run (C1 tab) j (lit 0) _ ltac:(lia))).
  rewrite (bind_ok _ (call_g_run _ _ _ _)).
  rewrite emit_emit. simpl app.
  unfold spec_couple, drift_at, diffusion_at.
  apply mapM_run.
  intros [h [f_ [g_ k0]]] _.
  set (w' := emit _ w).
  assert (HA : bind (index (A0 tab) i) (fun row => index row j) w' =
               (Ok (coef2 (A0 tab) i j), w'))
    by (apply index2_run, (wf_A0 Hwf); assumption).
  assert (HB : bind (index (B0 tab) i) (fun row => index row j) w' =
               (Ok (coef2 (B0 tab) i j), w'))
    by (apply index2_run, (wf_B0 Hwf); assumption).
  unfold bind in HA, HB |- *.
  destruct (index (A0 tab) i w') as [[ra|ea] wa]; [|discriminate].
  destruct (index ra j wa) as [[a|ea] wa']; [|discriminate].
  injection HA as -> ->.
  destruct (index (B0 tab) i w') as [[rb|eb] wb]; [|discriminate].
  destruct (index rb j wb) as [[b|eb] wb']; [|discriminate].
  injection HB as -> ->.
  reflexivity.
Qed.

Lemma coupling_loop_run H0 i w :
  i < STAGES tab -> i <= length H0 ->
  foldM (coupling_body tab self t0 y0 dt I_k0 H0 i) (seq 0 i) y0 w =
  (Ok (spec_stage_value f g tab t0 y0 dt I_k0 H0 i),
   emit (coupling_events tab t0 y0 dt H0 i) w).
Proof.
  intros HiS HiH. unfold spec_stage_value, coupling_events.
  apply (foldM_run (coupling_body tab self t0 y0 dt I_k0 H0 i)
           (spec_couple f g tab t0 y0 dt I_k0 H0 i)).
  intros s j w' Hj. apply in_seq in Hj.
  apply coupling_body_run; lia.
Qed.

Lemma g_weight_run i w :
  i < STAGES tab ->
  mapM (fun '(I_k_, I_k0_) =>
          bind (index (beta1 tab) i) (fun b1 =>
          bind (index (beta2 tab) i) (fun b2 =>
          ret (tadd (scale_l b1 I_k_) (tdiv (scale_l b2 I_k0_) dt)))))
       (combine I_k I_k0) w =
  (Ok (spec_g_weight tab dt I_k I_k0 i), w).
Proof.
  intros HiS. unfold spec_g_weight.
  pose proof (wf_beta1 Hwf) as H1. pose proof (wf_beta2 Hwf) as H2.
  apply mapM_run. intros [a b] _.
  rewrite (bind_ok _ (index_run (beta1 tab) i (lit 0) w ltac:(lia))).
  rewrite (bind_ok _ (index_run (beta2 tab) i (lit 0) w ltac:(lia))).
  reflexivity.
Qed.

Lemma stage_body_run s i w :
  i < STAGES tab -> i <= length (fst s) ->
  stage_body tab self t0 y0 dt I_k I_k0 s i w =
  (Ok (spec_stage f g tab t0 y0 dt I_k I_k0 s i),
   emit (stage_events f g tab t0 y0 dt I_k0 (fst s) i) w).
Proof.
  intros HiS HiH. destruct s as [H0 y1]. simpl in HiH |- *.
  unfold stage_body, spec_stage, stage_events. simpl fst. simpl snd.
  pose proof (wf_C0 Hwf) as HC0. pose proof (wf_C1 Hwf) as HC1.
  pose proof (wf_alpha Hwf) as Hal.
  rewrite (bind_ok _ (coupling_loop_run H0 i w HiS HiH)).
  rewrite (bind_ok _ (index_run (C0 tab) i (lit 0) _ ltac:(lia))).
  rewrite (bind_ok _ (call_f_run _ _ _ _)).
  rewrite (bind_ok _ (index_run (C1 tab) i (lit 0) _ ltac:(lia))).
  rewrite (bind_ok _ (call_g_run _ _ _ _)).
  rewrite (bind_ok _ (g_weight_run i _ HiS)).
  rewrite !emit_emit. simpl app.
  erewrite bind_ok.
  2:{ apply mapM_run with
        (k' := fun '(y, (f_, (g_, w_))) =>
                 tadd (tadd y (scale_r (scale_l (coef (alpha tab) i) f_) dt))
                      (batch_mvp g_ w_)).
      intros [y [f_ [g_ w_]]] _.
      rewrite (bind_ok _ (index_run (alpha tab) i (lit 0) _ ltac:(lia))).
      reflexivity. }
  reflexivity.
Qed.

Lemma stage_loop_passes n : forall a s w,
  a <= length (fst s) -> a + n <= STAGES tab ->
  foldM (stage_body tab self t0 y0 dt I_k I_k0) (seq a n) s w =
  (Ok (fold_left (spec_stage f g tab t0 y0 dt I_k I_k0) (seq a n) s),
   emit (loop_events f g tab t0 y0 dt I_k I_k0 (seq a n) s) w).
Proof.
  induction n as [|n IH]; intros a s w Ha Hn; simpl.
  - now rewrite emit_nil.
  - rewrite (bind_ok _ (stage_body_run s a w ltac:(lia) Ha)).
    rewrite IH.
    + now rewrite emit_emit.
    + unfold spec_stage. simpl. rewrite length_app. simpl. lia.
    + lia.
Qed.

Lemma stage_loop_run w :
  stage_loop tab self t0 y0 dt I_k I_k0 w =
  (Ok (compute_step f g tab t0 y0 dt I_k I_k0),
   emit (loop_events f g tab t0 y0 dt I_k I_k0
           (seq 0 (STAGES tab)) ([], y0)) w).
Proof.
  unfold stage_loop, compute_step, spec_loop.
  rewrite (bind_ok _ (stage_loop_passes (STAGES tab) 0 ([], y0) w
                        (Nat.le_0_l _) (Nat.le_refl _))).
  destruct (fold_left _ _ _) as [H0 y1]. reflexivity.
Qed.

End StageRun.

(** ** The stochastic integrals and the whole step *)

Section StepRun.

Context {T : Torch}.

Variable cta :
  (scalar -> list tensor) -> scalar -> list tensor -> scalar -> scalar ->
  list tensor.
Variable tab : tableau.
Variable self : SRKAdditive.
Variables (t0 dt : scalar).

Lemma brownian_increment_run y ys w :
  brownian_increment self t0 (y :: ys) dt w =
  (Ok (map (fun '(n, c) => to (tsub n c) y)
           (combine (bm self (sadd t0 dt)) (bm self t0))),
   emit [EvBm (sadd t0 dt); EvBm t0] w).
Proof.
  unfold brownian_increment.
  rewrite (bind_ok _ (call_bm_run _ _ _)).
  rewrite (bind_ok _ (call_bm_run _ _ _)).
  rewrite emit_emit. simpl app.
  apply mapM_run. intros [n c] _. reflexivity.
Qed.

Lemma brownian_increment_none y0 w :
  combine (bm self (sadd t0 dt)) (bm self t0) = [] ->
  brownian_increment self t0 y0 dt w =
  (Ok [], emit [EvBm (sadd t0 dt); EvBm t0] w).
Proof.
  intros E. unfold brownian_increment.
  rewrite (bind_ok _ (call_bm_run _ _ _)).
  rewrite (bind_ok _ (call_bm_run _ _ _)).
  rewrite emit_emit, E. reflexivity.
Qed.

Lemma normal_draws_length I_k r :
  length (fst (normal_draws I_k r)) = length I_k.
Proof.
  revert r. induction I_k as [|x l IH]; intros r; simpl.
  - reflexivity.
  - destruct (randn_like x r) as [z r1].
    specialize (IH r1). destruct (normal_draws l r1) as [zs r2].
    simpl in *. now rewrite IH.
Qed.

(** The Gaussian branch of lines 55-58, one draw per block. *)
Lemma gaussian_run sqrt_dt I_k w :
  mapM (fun delta_bm_ =>
          bind (draw delta_bm_) (fun z =>
          ret (scale_l (sdiv dt (lit 2))
                 (tadd delta_bm_
                    (tdiv (scale_r z sqrt_dt) (ssqrt (lit 3)))))))
       I_k w =
  (Ok (map (fun '(x, z) =>
              scale_l (sdiv dt (lit 2))
                (tadd x (tdiv (scale_r z sqrt_dt) (ssqrt (lit 3)))))
           (combine I_k (fst (normal_draws I_k (gen w))))),
   {| trace := trace w; gen := snd (normal_draws I_k (gen w)) |}).
Proof.
  revert w. induction I_k as [|x l IH]; intros w.
  - destruct w. reflexivity.
  - simpl. unfold bind at 1. unfold bind at 1. unfold draw at 1.
    destruct (randn_like x (gen w)) as [z r1]. unfold ret at 1.
    rewrite (bind_ok _ (IH _)). simpl.
    destruct (normal_draws l r1) as [zs r2]. reflexivity.
Qed.

Lemma second_integral_trapezoidal y0 sqrt_dt I_k w :
  trapezoidal_approx self = true ->
  second_integral cta self t0 y0 dt sqrt_dt I_k w =
  (Ok (cta (bm self) t0 y0 dt sqrt_dt), w).
Proof. unfold second_integral. intros ->. reflexivity. Qed.

Lemma second_integral_length y0 sqrt_dt I_k w :
  trapezoidal_approx self = false ->
  exists I_k0 w',
    second_integral cta self t0 y0 dt sqrt_dt I_k w = (Ok I_k0, w') /\
    trace w' = trace w /\ length I_k0 = length I_k.
Proof.
  intros E. unfold second_integral. rewrite E, gaussian_run.
  eexists _, _. split; [reflexivity|]. split; [reflexivity|].
  rewrite length_map, length_combine, normal_draws_length. lia.
Qed.

(** With a non-empty state the stochastic integrals are always produced. *)
Lemma stochastic_integrals_ok y0 w :
  y0 <> [] ->
  exists I_k I_k0 w1,
    stochastic_integrals cta self t0 y0 dt w = (Ok (I_k, I_k0), w1) /\
    trace w1 = trace w ++ [EvBm (sadd t0 dt); EvBm t0].
Proof.
  intros Hy. destruct y0 as [|y ys]; [congruence|].
  unfold stochastic_integrals.
  rewrite (bind_ok _ (brownian_increment_run y ys w)).
  destruct (trapezoidal_approx self) eqn:E.
  - rewrite (bind_ok _ (second_integral_trapezoidal _ _ _ _ E)).
    eexists _, _, _. split; reflexivity.
  - destruct (second_integral_length (y :: ys) (ssqrt dt)
                (map (fun '(n, c) => to (tsub n c) y)
                   (combine (bm self (sadd t0 dt)) (bm self t0)))
                (emit [EvBm (sadd t0 dt); EvBm t0] w) E)
      as (I_k0 & w' & Hrun & Htr & _).
    rewrite (bind_ok _ Hrun).
    eexists _, _, _. split; [reflexivity|]. exact Htr.
Qed.

(** [step] on a positive step size: the integrals, then the stage loop. *)
Lemma step_run y0 w I_k I_k0 w1 :
  tableau_wf tab ->
  sgt dt (lit 0) = true ->
  stochastic_integrals cta self t0 y0 dt w = (Ok (I_k, I_k0), w1) ->
  step cta tab self t0 y0 dt w =
  (Ok (compute_step (sde_f self) (sde_g self) tab t0 y0 dt I_k I_k0),
   emit (loop_events (sde_f self) (sde_g self) tab t0 y0 dt I_k I_k0
           (seq 0 (STAGES tab)) ([], y0)) w1).
Proof.
  intros Hwf Hdt Hint. unfold step. rewrite Hdt.
  unfold assert. rewrite (bind_ok (w := w) (a := tt) (w' := w) _ eq_refl).
  rewrite (bind_ok _ Hint).
  apply stage_loop_run, Hwf.
Qed.

End StepRun.

(** ** Counting the calls of the stage loop *)

Section Counting.

Context {T : Torch}.

Variable f : scalar -> list tensor -> list tensor.
Variable g : scalar -> list tensor -> list operator.
Variable tab : tableau.
Variables (t0 : scalar) (y0 : list tensor) (dt : scalar).
Variables (I_k I_k0 : list tensor).






End Counting.

(** ** Facts about the concrete instances *)

Lemma Q2R_zero : Q2R 0 = 0%R.
Proof. unfold Q2R. simpl. lra. Qed.

Lemma Rgtb_pos (x : R) : (0 < x)%R -> @sgt RealTorch x (lit 0) = true.
Proof.
  intros Hx. simpl. unfold Rgtb. rewrite Q2R_zero.
  destruct (Rlt_dec 0 x); [reflexivity | contradiction].
Qed.

Lemma Rgtb_nonpos (x : R) : (x <= 0)%R -> @sgt RealTorch x (lit 0) = false.
Proof.
  intros Hx. simpl. unfold Rgtb. rewrite Q2R_zero.
  destruct (Rlt_dec 0 x); [lra | reflexivity].
Qed.

Lemma sra1_wf {T : Torch} : tableau_wf sra1.
Proof.
  constructor; simpl; try lia.
  - intros [|[|i]] j Hj Hi; simpl; lia.
  - intros [|[|i]] j Hj Hi; simpl; lia.
Qed.

(** ** Where the drift and the diffusion are evaluated *)

Section Placement.

Context {T : Torch}.

Variable f : scalar -> list tensor -> list tensor.
Variable g : scalar -> list tensor -> list operator.
Variable tab : tableau.
Variables (t0 : scalar) (y0 : list tensor) (dt : scalar).
Variables (I_k I_k0 : list tensor).

Let stage := spec_stage f g tab t0 y0 dt I_k I_k0.
Let events := loop_events f g tab t0 y0 dt I_k I_k0.

Lemma stages_extend l : forall s,
  exists more, fst (fold_left stage l s) = fst s ++ more.
Proof.
  induction l as [|i l IH]; intros s; simpl.
  - exists []. now rewrite app_nil_r.
  - destruct (IH (stage s i)) as [more E]. rewrite E.
    unfold stage, spec_stage. simpl fst.
    eexists. now rewrite <- app_assoc.
Qed.






End Placement.

(** ** The claims about the value and the calls of [step] *)

(** C1: on a positive step size, given the Brownian quantities [I_k] and
    [I_k0] that lines 52-58 produce, [step] returns [t0 + dt] together with
    the value [y1] of the S-stage loop of the spec: every stage starts from
    [y0] and adds, for [j < i] and per block,
    [A0[i][j]*f(t0+C0[j]*dt, H0[j])*dt + B0[i][j]*(g(t0+C1[j]*dt, y0) applied
    to I_k0)/dt], and [y1] accumulates [alpha[i]*f(t0+C0[i]*dt, H0[i])*dt]
    plus [g(t0+C1[i]*dt, y0)] applied to [beta1[i]*I_k + beta2[i]*I_k0/dt]. *)
Theorem step_computes_stage_iterator :
  forall (T : Torch) cta (tab : tableau) (self : SRKAdditive)
         (t0 : scalar) (y0 : list tensor) (dt : scalar)
         (w : world) (I_k I_k0 : list tensor) (w1 : world),
    sgt dt (lit 0) = true ->
    tableau_wf tab ->
    stochastic_integrals cta self t0 y0 dt w = (Ok (I_k, I_k0), w1) ->
    fst (step cta tab self t0 y0 dt w) =
    Ok (compute_step (sde_f self) (sde_g self) tab t0 y0 dt I_k I_k0).
Proof.
  intros T cta tab self t0 y0 dt w I_k I_k0 w1 Hdt Hwf Hint.
  now rewrite (step_run cta tab self t0 dt y0 w I_k I_k0 w1 Hwf Hdt Hint).
Qed.

Lemma step_computes_stage_iterator_witness :
  fst (@step RealTorch one_panel sra1
         (real_solver linear_drift time_diffusion []) 0%R [1%R] 1%R
         (real_world [])) =
  Ok (@compute_step RealTorch linear_drift time_diffusion sra1
        0%R [1%R] 1%R [(0 + 1 - 0)%R] [(1 / 2 * (0 + 1 - 0))%R]).
Proof.
  apply (step_computes_stage_iterator RealTorch one_panel sra1
           (real_solver linear_drift time_diffusion []) 0%R [1%R] 1%R
           (real_world []) [(0 + 1 - 0)%R] [(1 / 2 * (0 + 1 - 0))%R]
           (emit [@EvBm RealTorch (0 + 1)%R; @EvBm RealTorch 0%R]
              (real_world []))).
  - apply Rgtb_pos. lra.
  - apply sra1_wf.
  - reflexivity.
Defined.




(** C3: when the test [dt > 0] fails - for [dt <= 0] - [step] raises at its
    first line: the caller gets the exception, nothing has been evaluated
    (the trace of collaborator calls is unchanged, so neither [sde.f] nor
    [sde.g] nor the Brownian source was called) and no sample was drawn.
    Nothing in [step] catches the exception. *)
Theorem step_rejects_nonpositive_dt :
  forall (T : Torch) cta (tab : tableau) (self : SRKAdditive)
         (t0 : scalar) (y0 : list tensor) (dt : scalar) (w : world),
    sgt dt (lit 0) = false ->
    step cta tab self t0 y0 dt w = (Raise AssertionError, w).
Proof.
  intros T cta tab self t0 y0 dt w Hdt. unfold step. rewrite Hdt.
  reflexivity.
Qed.

Lemma step_rejects_nonpositive_dt_witness :
  @step RealTorch one_panel sra1
     (real_solver linear_drift time_diffusion []) 0%R [1%R] 0%R
     (real_world []) = (Raise AssertionError, real_world []) /\
  @step RealTorch one_panel sra1
     (real_solver linear_drift time_diffusion gaussian_options) 0%R [1%R]
     (-1)%R (real_world [0%R]) = (Raise AssertionError, real_world [0%R]).
Proof.
  split.
  - apply (step_rejects_nonpositive_dt RealTorch). apply Rgtb_nonpos. lra.
  - apply (step_rejects_nonpositive_dt RealTorch). apply Rgtb_nonpos. lra.
Defined.

(** ** An invariant of the trace *)

Section TraceInvariant.

Context {T : Torch}.

Variable P : event -> Prop.

Lemma cs_ret {A} (a : A) : calls_satisfy P (ret a).
Proof. intros w Hw. exact Hw. Qed.

Lemma cs_raise {A} e : calls_satisfy P (@raise T A e).
Proof. intros w Hw. exact Hw. Qed.

Lemma cs_bind {A B} (m : M A) (k : A -> M B) :
  calls_satisfy P m -> (forall a, calls_satisfy P (k a)) ->
  calls_satisfy P (bind m k).
Proof.
  intros Hm Hk w Hw. unfold bind. specialize (Hm w Hw).
  destruct (m w) as [[a|e] w']; simpl in *.
  - apply Hk, Hm.
  - exact Hm.
Qed.

Lemma cs_log e : P e -> calls_satisfy P (log e).
Proof.
  intros He w Hw. simpl. apply Forall_app. split; [exact Hw|].
  constructor; [exact He | constructor].
Qed.

Lemma cs_draw x : calls_satisfy P (draw x).
Proof.
  intros w Hw. unfold draw. destruct (randn_like x (gen w)). exact Hw.
Qed.

Lemma cs_assert c : calls_satisfy P (assert c).
Proof. destruct c; [apply cs_ret | apply cs_raise]. Qed.

Lemma cs_index {A} (l : list A) i : calls_satisfy P (index l i).
Proof.
  unfold index. destruct (nth_error l i); [apply cs_ret | apply cs_raise].
Qed.

Lemma cs_mapM {A B} (k : A -> M B) l :
  (forall x, calls_satisfy P (k x)) -> calls_satisfy P (mapM k l).
Proof.
  intros Hk. induction l as [|x l IH]; simpl.
  - apply cs_ret.
  - apply cs_bind; [apply Hk | intros y].
    apply cs_bind; [apply IH | intros ys]. apply cs_ret.
Qed.

Lemma cs_foldM {A St} (body : St -> A -> M St) l :
  (forall s x, calls_satisfy P (body s x)) ->
  forall s, calls_satisfy P (foldM body l s).
Proof.
  intros Hb. induction l as [|x l IH]; intros s; simpl.
  - apply cs_ret.
  - apply cs_bind; [apply Hb | apply IH].
Qed.

End TraceInvariant.

Create HintDb calls.

#[local] Hint Resolve cs_ret cs_raise cs_draw cs_assert cs_index : calls.

(** Break a monadic program into its calls. *)
Ltac calls_step :=
  match goal with
  | |- calls_satisfy _ (bind _ _) => apply cs_bind; [|intros]
  | |- calls_satisfy _ (mapM _ _) => apply cs_mapM; intros
  | |- calls_satisfy _ (foldM _ _ _) => apply cs_foldM; intros
  | |- calls_satisfy _ (log _) => apply cs_log; exact I
  | |- calls_satisfy _ (log _) => apply cs_log; reflexivity
  | |- calls_satisfy _ (let '(_, _) := ?x in _) => destruct x
  | |- calls_satisfy _ (if ?c then _ else _) => destruct c
  | |- calls_satisfy _ _ => solve [auto with calls]
  end.

Section DiffusionState.

Context {T : Torch}.

Variable cta :
  (scalar -> list tensor) -> scalar -> list tensor -> scalar -> scalar ->
  list tensor.
Variable tab : tableau.
Variable self : SRKAdditive.
Variables (t0 : scalar) (y0 : list tensor) (dt : scalar).

Lemma step_calls_diffusion_at_y0 :
  calls_satisfy (diffusion_at_y0 y0) (step cta tab self t0 y0 dt).
Proof.
  unfold step, stochastic_integrals, brownian_increment, second_integral,
    stage_loop, stage_body, coupling_body, call_f, call_g, call_bm.
  repeat calls_step.
Qed.

End DiffusionState.

(** C4: in every step, whatever its outcome, each call of [sde.g] - in the
    coupling loop over [j] as well as in the final combination of a stage -
    is made with the initial state [y0] as its state argument. *)
Theorem diffusion_always_evaluated_at_y0 :
  forall (T : Torch) cta (tab : tableau) (self : SRKAdditive)
         (t0 : scalar) (y0 : list tensor) (dt : scalar) (r : rng),
    Forall (diffusion_at_y0 y0)
      (trace (snd (step cta tab self t0 y0 dt {| trace := []; gen := r |}))).
Proof.
  intros T cta tab self t0 y0 dt r.
  apply (step_calls_diffusion_at_y0 cta tab self t0 y0 dt).
  constructor.
Qed.

(** ** Programs that never touch the generator *)

Section GeneratorFree.

Context {T : Torch}.

Lemma gf_ret {A} (a : A) : generator_free (ret a).
Proof. intros w1 w2. split; reflexivity. Qed.

Lemma gf_raise {A} e : generator_free (@raise T A e).
Proof. intros w1 w2. split; reflexivity. Qed.

Lemma gf_bind {A B} (m : M A) (k : A -> M B) :
  generator_free m -> (forall a, generator_free (k a)) ->
  generator_free (bind m k).
Proof.
  intros Hm Hk w1 w2. destruct (Hm w1 w2) as [Hres Hgen]. unfold bind.
  destruct (m w1) as [[a1|e1] w1'], (m w2) as [[a2|e2] w2'];
    simpl in *; try discriminate.
  - injection Hres as ->. destruct (Hk a2 w1' w2') as [Hres' Hgen'].
    split; [exact Hres' | congruence].
  - injection Hres as ->. split; [reflexivity | assumption].
Qed.

Lemma gf_log e : generator_free (log e).
Proof. intros w1 w2. split; reflexivity. Qed.

Lemma gf_assert c : generator_free (assert c).
Proof. destruct c; [apply gf_ret | apply gf_raise]. Qed.

Lemma gf_index {A} (l : list A) i : generator_free (index l i).
Proof.
  unfold index. destruct (nth_error l i); [apply gf_ret | apply gf_raise].
Qed.

Lemma gf_mapM {A B} (k : A -> M B) l :
  (forall x, generator_free (k x)) -> generator_free (mapM k l).
Proof.
  intros Hk. induction l as [|x l IH]; simpl.
  - apply gf_ret.
  - apply gf_bind; [apply Hk | intros y].
    apply gf_bind; [apply IH | intros ys]. apply gf_ret.
Qed.

Lemma gf_foldM {A St} (body : St -> A -> M St) l :
  (forall s x, generator_free (body s x)) ->
  forall s, generator_free (foldM body l s).
Proof.
  intros Hb. induction l as [|x l IH]; intros s; simpl.
  - apply gf_ret.
  - apply gf_bind; [apply Hb | apply IH].
Qed.

End GeneratorFree.

Create HintDb genfree.

#[local] Hint Resolve gf_ret gf_raise gf_log gf_assert gf_index : genfree.

Ltac genfree_step :=
  match goal with
  | |- generator_free (bind _ _) => apply gf_bind; [|intros]
  | |- generator_free (mapM _ _) => apply gf_mapM; intros
  | |- generator_free (foldM _ _ _) => apply gf_foldM; intros
  | |- generator_free (let '(_, _) := ?x in _) => destruct x
  | |- generator_free _ => solve [auto with genfree]
  end.

Section Determinism.

Context {T : Torch}.

Variable cta :
  (scalar -> list tensor) -> scalar -> list tensor -> scalar -> scalar ->
  list tensor.
Variable tab : tableau.
Variable self : SRKAdditive.
Variables (t0 : scalar) (y0 : list tensor) (dt : scalar).

Lemma step_trapezoidal_generator_free :
  trapezoidal_approx self = true ->
  generator_free (step cta tab self t0 y0 dt).
Proof.
  intros Htrap.
  unfold step, stochastic_integrals, brownian_increment, second_integral,
    stage_loop, stage_body, coupling_body, call_f, call_g, call_bm.
  rewrite Htrap.
  repeat genfree_step.
Qed.

End Determinism.

(** ** Two Gaussian-surrogate steps in a row *)

(** With drift [f(t, y) = y], diffusion [g = 1], [W(t) = t], [y0 = (1)],
    [t0 = 0], [dt = 1] and a generator that hands out 0 and then 1, the
    first step returns [y1 = 4] ... *)
Lemma gaussian_first_step_value :
  fst (@step RealTorch one_panel sra1
         (real_solver linear_drift constant_diffusion gaussian_options)
         0%R [1%R] 1%R (real_world [0%R; 1%R])) = Ok (1%R, [4%R]).
Proof.
  assert (Hdt : @sgt RealTorch 1%R (lit 0) = true) by (apply Rgtb_pos; lra).
  erewrite (@step_run RealTorch one_panel sra1 _ 0%R 1%R [1%R]
              (real_world [0%R; 1%R]) _ _ _ sra1_wf Hdt);
    [|reflexivity].
  unfold compute_step, spec_loop. simpl.
  unfold coef, coef2. simpl nth.
  rewrite sqrt_1. unfold Rdiv. set (u := (/ sqrt (Q2R 3))%R).
  unfold Q2R. simpl.
  f_equal. f_equal; [lra|]. f_equal. lra.
Qed.

(** ... and the second, which draws the sample 1, a different state
    ([y1 = 4 + 1/(2*sqrt 3)]). *)
Lemma gaussian_steps_differ :
  let self := real_solver linear_drift constant_diffusion gaussian_options in
  let first := @step RealTorch one_panel sra1 self 0%R [1%R] 1%R
                 (real_world [0%R; 1%R]) in
  let second := @step RealTorch one_panel sra1 self 0%R [1%R] 1%R
                  (snd first) in
  fst first <> fst second.
Proof.
  assert (Hdt : @sgt RealTorch 1%R (lit 0) = true) by (apply Rgtb_pos; lra).
  cbv zeta.
  erewrite (@step_run RealTorch one_panel sra1 _ 0%R 1%R [1%R]
              (real_world [0%R; 1%R]) _ _ _ sra1_wf Hdt);
    [|reflexivity].
  simpl snd.
  erewrite (@step_run RealTorch one_panel sra1 _ 0%R 1%R [1%R]
              _ _ _ _ sra1_wf Hdt);
    [|reflexivity].
  simpl fst.
  unfold compute_step, spec_loop. simpl.
  unfold coef, coef2. simpl nth.
  assert (Hu : (0 < / sqrt (Q2R 3))%R).
  { apply Rinv_0_lt_compat, sqrt_lt_R0. unfold Q2R. simpl. lra. }
  rewrite sqrt_1. unfold Rdiv. set (u := (/ sqrt (Q2R 3))%R) in *.
  unfold Q2R. simpl.
  intros H. injection H as H. lra.
Qed.

(** C8: in trapezoidal mode the outcome of [step] is the same from any two
    worlds: with the same arguments and the same Brownian source it returns
    the same [(t1, y1)] whatever the state of the random generator, which it
    leaves untouched.  In Gaussian-surrogate mode this fails: two successive
    calls with the same arguments and the same Brownian source return
    different states, because the second call draws a fresh sample. *)
Theorem trapezoidal_deterministic_gaussian_not :
  (forall (T : Torch) cta (tab : tableau) (self : SRKAdditive)
          (t0 : scalar) (y0 : list tensor) (dt : scalar) (w1 w2 : world),
      trapezoidal_approx self = true ->
      fst (step cta tab self t0 y0 dt w1) =
        fst (step cta tab self t0 y0 dt w2) /\
      gen (snd (step cta tab self t0 y0 dt w1)) = gen w1) /\
  (let self := real_solver linear_drift constant_diffusion gaussian_options in
   let first := @step RealTorch one_panel sra1 self 0%R [1%R] 1%R
                  (real_world [0%R; 1%R]) in
   let second := @step RealTorch one_panel sra1 self 0%R [1%R] 1%R
                   (snd first) in
   trapezoidal_approx self = false /\ fst first <> fst second).
Proof.
  split.
  - intros T cta tab self t0 y0 dt w1 w2 Htrap.
    apply step_trapezoidal_generator_free, Htrap.
  - cbv zeta. split; [reflexivity | apply gaussian_steps_differ].
Qed.

Lemma trapezoidal_deterministic_gaussian_not_witness :
  let self := real_solver linear_drift constant_diffusion [] in
  fst (@step RealTorch one_panel sra1 self 0%R [1%R] 1%R
         (real_world [0%R; 1%R])) =
    fst (@step RealTorch one_panel sra1 self 0%R [1%R] 1%R
           (real_world [1%R])) /\
  gen (snd (@step RealTorch one_panel sra1 self 0%R [1%R] 1%R
              (real_world [0%R; 1%R]))) = [0%R; 1%R].
Proof.
  apply (proj1 trapezoidal_deterministic_gaussian_not RealTorch one_panel
           sra1 (real_solver linear_drift constant_diffusion []) 0%R [1%R]
           1%R (real_world [0%R; 1%R]) (real_world [1%R])).
  reflexivity.
Defined.

(** C5: with [trapezoidal_approx] disabled, on a non-empty state and a
    positive step size, lines 52-58 return the increment of line 54,
    [I_k[b] = (bm(t0+dt)[b] - bm(t0)[b]).to(y0[0])] for every common block of
    the two answers of the Brownian source, and, for every such block,
    [I_k0[b] = (dt/2) * (I_k[b] + Z[b] * sqrt(dt/3))], where [Z[b]] is the
    sample that [randn_like] draws for that block (one draw per block, in
    order, of the shape of the block).  The arithmetic is exact: the code's
    [Z * sqrt(dt) / sqrt(3)] is read with [(x*a)/b = x*(a/b)] and
    [sqrt(a)/sqrt(3) = sqrt(a/3)]. *)
Theorem gaussian_surrogate_formula :
  forall (T : Torch) cta (self : SRKAdditive)
         (t0 : scalar) (y : tensor) (ys : list tensor) (dt : scalar)
         (w : world),
    (forall (x : tensor) (a b : scalar),
        tdiv (scale_r x a) b = scale_r x (sdiv a b)) ->
    (forall a : scalar, sgt a (lit 0) = true ->
        sdiv (ssqrt a) (ssqrt (lit 3)) = ssqrt (sdiv a (lit 3))) ->
    sgt dt (lit 0) = true ->
    trapezoidal_approx self = false ->
    let I_k := map (fun '(bm_next, bm_cur) => to (tsub bm_next bm_cur) y)
                 (combine (bm self (sadd t0 dt)) (bm self t0)) in
    let Z := fst (normal_draws I_k (gen w)) in
    let I_k0 := map (fun '(x, z) =>
                       scale_l (sdiv dt (lit 2))
                         (tadd x (scale_r z (ssqrt (sdiv dt (lit 3))))))
                  (combine I_k Z) in
    stochastic_integrals cta self t0 (y :: ys) dt w =
      (Ok (I_k, I_k0),
       {| trace := trace w ++ [EvBm (sadd t0 dt); EvBm t0];
          gen := snd (normal_draws I_k (gen w)) |}) /\
    length I_k =
      Nat.min (length (bm self (sadd t0 dt))) (length (bm self t0)) /\
    length Z = length I_k /\
    length I_k0 = length I_k.
Proof.
  intros T cta self t0 y ys dt w Hassoc Hsqrt Hdt Hmode I_k Z I_k0.
  assert (HZ : length Z = length I_k) by apply normal_draws_length.
  split; [|split; [|split]].
  - unfold stochastic_integrals.
    rewrite (bind_ok _ (brownian_increment_run self t0 dt y ys w)).
    fold I_k. unfold second_integral. rewrite Hmode.
    rewrite (bind_ok _ (gaussian_run dt (ssqrt dt) I_k _)).
    unfold ret, I_k0, Z. simpl gen. simpl trace. f_equal. f_equal. f_equal.
    apply map_ext. intros [x z]. now rewrite Hassoc, (Hsqrt dt Hdt).
  - unfold I_k. now rewrite length_map, length_combine.
  - exact HZ.
  - unfold I_k0. rewrite length_map, length_combine, HZ. apply Nat.min_id.
Qed.

Lemma real_scaling_associates
    (x : @tensor RealTorch) (a b : @scalar RealTorch) :
  tdiv (scale_r x a) b = scale_r x (sdiv a b).
Proof. simpl. unfold Rdiv. ring. Qed.

Lemma real_sqrt_quotient (a : @scalar RealTorch) :
  sgt a (lit 0) = true ->
  sdiv (ssqrt a) (ssqrt (lit 3)) = ssqrt (sdiv a (lit 3)).
Proof.
  intros _. simpl. symmetry. apply sqrt_div_alt.
  unfold Q2R. simpl. lra.
Qed.

Lemma gaussian_surrogate_formula_witness :
  @stochastic_integrals RealTorch one_panel
     (real_solver linear_drift constant_diffusion gaussian_options)
     0%R [1%R] 1%R (real_world [0%R; 1%R]) =
    (Ok ([(0 + 1 - 0)%R],
         [(1 / Q2R 2 * ((0 + 1 - 0) + 0 * sqrt (1 / Q2R 3)))%R]),
     @Build_world RealTorch
       [@EvBm RealTorch (0 + 1)%R; @EvBm RealTorch 0%R] [1%R]) /\
  length [(0 + 1 - 0)%R] = Nat.min 1 1 /\
  length [0%R] = length [(0 + 1 - 0)%R] /\
  length [(1 / Q2R 2 * ((0 + 1 - 0) + 0 * sqrt (1 / Q2R 3)))%R] =
    length [(0 + 1 - 0)%R].
Proof.
  apply (gaussian_surrogate_formula RealTorch one_panel
           (real_solver linear_drift constant_diffusion gaussian_options)
           0%R 1%R [] 1%R (real_world [0%R; 1%R])).
  - exact real_scaling_associates.
  - exact real_sqrt_quotient.
  - apply Rgtb_pos. lra.
  - reflexivity.
Defined.

(** C9: [strong_order] is 1.5 for every solver object, whatever option
    mapping it was built from - in particular whatever [trapezoidal_approx]
    says; on the reals this is the number 3/2. *)
Theorem strong_order_is_one_and_a_half :
  (forall (T : Torch) f g b (opts : list (string * bool)),
      strong_order (init f g b opts) = lit 1.5) /\
  (forall f g b (opts : list (string * bool)),
      @strong_order RealTorch (init f g b opts) = (3 / 2)%R).
Proof.
  split.
  - reflexivity.
  - intros f g b opts. unfold strong_order. simpl. unfold Q2R. simpl. lra.
Qed.

(** ** Zero diffusion *)

(** In a [zip] of four sequences the last two can be dropped when they are
    long enough and the body does not depend on their elements. *)
Lemma zip4_forget {A B C D E} (F : A * (B * (C * D)) -> E)
    (F' : A * B -> E) (P : C -> Prop) :
  (forall x y z u, P z -> F (x, (y, (z, u))) = F' (x, y)) ->
  forall (a : list A) (b : list B) (c : list C) (d : list D),
    length a <= length c -> length a <= length d -> Forall P c ->
    map F (zip4 a b c d) = map F' (combine a b).
Proof.
  intros HF. unfold zip4.
  induction a as [|x a IH]; intros b c d Hc Hd HP; [reflexivity|].
  destruct b as [|y b]; [reflexivity|].
  destruct c as [|z c]; [simpl in Hc; lia|].
  destruct d as [|u d]; [simpl in Hd; lia|].
  inversion HP as [|? ? Hz HP']; subst. simpl in *.
  rewrite (HF x y z u Hz). f_equal. apply IH; [lia | lia | exact HP'].
Qed.

Section ZeroDiffusion.

Context {T : Torch}.

Variable f : scalar -> list tensor -> list tensor.
Variable g : scalar -> list tensor -> list operator.
Variable tab : tableau.
Variables (t0 : scalar) (y0 : list tensor) (dt : scalar).
Variables (I_k I_k0 : list tensor).
Variable zero : tensor.

Hypothesis add_zero : forall x, tadd x zero = x.
Hypothesis scale_zero : forall a, scale_l a zero = zero.
Hypothesis div_zero : forall a, tdiv zero a = zero.
Hypothesis g_zero : forall t, Forall (zero_operator zero) (g t y0).
Hypothesis g_blocks : forall t, length (g t y0) = length y0.
Hypothesis I_k_blocks : length I_k = length y0.
Hypothesis I_k0_blocks : length I_k0 = length y0.

Let rkc := rk_couple f (C0 tab) (A0 tab) t0 dt.
Let rks := rk_stage f (C0 tab) (A0 tab) (alpha tab) t0 y0 dt.

Lemma couple_without_diffusion H0 i H0i j :
  length H0i <= length y0 ->
  spec_couple f g tab t0 y0 dt I_k0 H0 i H0i j = rkc H0 i H0i j /\
  length (rkc H0 i H0i j) <= length y0.
Proof.
  intros Hlen. split.
  - unfold spec_couple, rkc, rk_couple, drift_at, diffusion_at.
    apply zip4_forget with (P := zero_operator zero).
    + intros h f_ g_ k0 Hz. now rewrite Hz, scale_zero, div_zero, add_zero.
    + now rewrite g_blocks.
    + now rewrite I_k0_blocks.
    + apply g_zero.
  - unfold rkc, rk_couple. rewrite length_map, length_combine. lia.
Qed.

Lemma stage_value_without_diffusion H0 i l : forall H0i,
  length H0i <= length y0 ->
  fold_left (spec_couple f g tab t0 y0 dt I_k0 H0 i) l H0i =
    fold_left (rkc H0 i) l H0i.
Proof.
  induction l as [|j l IH]; intros H0i Hlen; simpl; [reflexivity|].
  destruct (couple_without_diffusion H0 i H0i j Hlen) as [-> Hlen'].
  apply IH, Hlen'.
Qed.

Lemma stage_without_diffusion s i :
  length (snd s) <= length y0 ->
  spec_stage f g tab t0 y0 dt I_k I_k0 s i = rks s i /\
  length (snd (rks s i)) <= length y0.
Proof.
  intros Hlen. split.
  - unfold spec_stage, rks, rk_stage, spec_stage_value, rk_stage_value.
    rewrite stage_value_without_diffusion by lia.
    fold rkc. f_equal.
    apply zip4_forget with (P := zero_operator zero).
    + intros y f_ g_ w_ Hz. now rewrite Hz, add_zero.
    + unfold diffusion_at. now rewrite g_blocks.
    + unfold spec_g_weight. rewrite length_map, length_combine. lia.
    + apply g_zero.
  - unfold rks, rk_stage. simpl. rewrite length_map, length_combine. lia.
Qed.

Lemma loop_without_diffusion l : forall s,
  length (snd s) <= length y0 ->
  fold_left (spec_stage f g tab t0 y0 dt I_k I_k0) l s = fold_left rks l s.
Proof.
  induction l as [|i l IH]; intros s Hlen; simpl; [reflexivity|].
  destruct (stage_without_diffusion s i Hlen) as [-> Hlen'].
  apply IH, Hlen'.
Qed.

Lemma compute_step_without_diffusion :
  compute_step f g tab t0 y0 dt I_k I_k0 =
  rk_step f (STAGES tab) (C0 tab) (A0 tab) (alpha tab) t0 y0 dt.
Proof.
  unfold compute_step, spec_loop, rk_step.
  rewrite loop_without_diffusion by (simpl; lia). reflexivity.
Qed.

End ZeroDiffusion.

(** The integrals have one block per state block when the Brownian source
    and the trapezoidal rule do, the empty state included. *)
Lemma stochastic_integrals_blocks {T : Torch} cta (self : SRKAdditive)
    (t0 : scalar) (y0 : list tensor) (dt : scalar) (w : world) :
  (forall t, length (bm self t) = length y0) ->
  length (cta (bm self) t0 y0 dt (ssqrt dt)) = length y0 ->
  exists I_k I_k0 w1,
    stochastic_integrals cta self t0 y0 dt w = (Ok (I_k, I_k0), w1) /\
    length I_k = length y0 /\ length I_k0 = length y0.
Proof.
  intros Hbm Hcta.
  assert (Hcomb : length (combine (bm self (sadd t0 dt)) (bm self t0)) =
                  length y0) by (rewrite length_combine, !Hbm; lia).
  assert (exists I_k w0,
             brownian_increment self t0 y0 dt w = (Ok I_k, w0) /\
             length I_k = length y0) as (I_k & w0 & Hrun & HI).
  { destruct y0 as [|y ys].
    - eexists _, _. split.
      + apply brownian_increment_none.
        now apply length_zero_iff_nil.
      + reflexivity.
    - eexists _, _. split; [apply brownian_increment_run|].
      now rewrite length_map. }
  unfold stochastic_integrals. rewrite (bind_ok _ Hrun).
  destruct (trapezoidal_approx self) eqn:E.
  - rewrite (bind_ok _ (second_integral_trapezoidal cta self t0 dt y0
                          (ssqrt dt) I_k w0 E)).
    eexists _, _, _. split; [reflexivity|]. split; assumption.
  - destruct (second_integral_length cta self t0 dt y0 (ssqrt dt) I_k w0 E)
      as (I_k0 & w' & Hrun' & _ & HI0).
    rewrite (bind_ok _ Hrun').
    eexists _, _, _. split; [reflexivity|]. split; congruence.
Qed.

(** C7: let every block of every diffusion evaluation be a zero operator,
    with tensor arithmetic in which adding, scaling and dividing the zero
    tensor behave as they do on numbers, and let the diffusion, the Brownian
    source and the trapezoidal rule return one block per state block.  Then,
    on a positive step size, [step] returns the explicit Runge-Kutta update
    built from [A0], [C0] and [alpha] only: the value mentions neither
    [I_k] nor [I_k0], neither the Brownian source nor the generator nor the
    mode. *)
Theorem zero_diffusion_is_runge_kutta :
  forall (T : Torch) cta (tab : tableau) (self : SRKAdditive)
         (t0 : scalar) (y0 : list tensor) (dt : scalar) (w : world)
         (zero : tensor),
    (forall x, tadd x zero = x) ->
    (forall a, scale_l a zero = zero) ->
    (forall a, tdiv zero a = zero) ->
    (forall t, Forall (zero_operator zero) (sde_g self t y0)) ->
    (forall t, length (sde_g self t y0) = length y0) ->
    (forall t, length (bm self t) = length y0) ->
    length (cta (bm self) t0 y0 dt (ssqrt dt)) = length y0 ->
    sgt dt (lit 0) = true ->
    tableau_wf tab ->
    fst (step cta tab self t0 y0 dt w) =
    Ok (rk_step (sde_f self) (STAGES tab) (C0 tab) (A0 tab) (alpha tab)
          t0 y0 dt).
Proof.
  intros T cta tab self t0 y0 dt w zero Hadd Hscale Hdiv Hzero Hg Hbm Hcta
    Hdt Hwf.
  destruct (stochastic_integrals_blocks cta self t0 y0 dt w Hbm Hcta)
    as (I_k & I_k0 & w1 & Hint & HI & HI0).
  rewrite (step_run cta tab self t0 dt y0 w I_k I_k0 w1 Hwf Hdt Hint).
  simpl fst. f_equal.
  apply compute_step_without_diffusion with (zero := zero); assumption.
Qed.

Lemma zero_diffusion_is_runge_kutta_witness :
  fst (@step RealTorch one_panel sra1
         (real_solver linear_drift zero_diffusion gaussian_options)
         0%R [1%R] 1%R (real_world [0%R; 1%R])) =
  Ok (@rk_step RealTorch linear_drift 2
        [Q2R 0; Q2R (3 # 4)] [[]; [Q2R (3 # 4)]] [Q2R (1 # 3); Q2R (2 # 3)]
        0%R [1%R] 1%R).
Proof.
  apply (zero_diffusion_is_runge_kutta RealTorch one_panel sra1
           (real_solver linear_drift zero_diffusion gaussian_options)
           0%R [1%R] 1%R (real_world [0%R; 1%R]) 0%R).
  - intros x. simpl. lra.
  - intros a. simpl. lra.
  - intros a. simpl. unfold Rdiv. lra.
  - intros t. repeat constructor. intros v. simpl. lra.
  - reflexivity.
  - reflexivity.
  - reflexivity.
  - apply Rgtb_pos. lra.
  - apply sra1_wf.
Defined.

(** ** Block counts *)

Section BlockCount.

Context {T : Torch}.

Variable f : scalar -> list tensor -> list tensor.
Variable g : scalar -> list tensor -> list operator.
Variable tab : tableau.
Variables (t0 : scalar) (y0 : list tensor) (dt : scalar).
Variables (I_k I_k0 : list tensor).

Let stage := spec_stage f g tab t0 y0 dt I_k I_k0.
Let blocks := stage_blocks f g tab t0 y0 dt I_k I_k0.


(** The block counts of the passes only read the stage values already
    there. *)
Lemma blocks_fold_stable n : forall a H0 more m,
  a + n <= length H0 ->
  fold_left (blocks (H0 ++ more)) (seq a n) m =
  fold_left (blocks H0) (seq a n) m.
Proof.
  induction n as [|n IH]; intros a H0 more m Hn; simpl; [reflexivity|].
  rewrite IH by lia. f_equal.
  unfold blocks, stage_blocks. rewrite app_nth1 by lia. reflexivity.
Qed.

Lemma stages_count n : forall a s,
  length (fst s) = a ->
  length (fst (fold_left stage (seq a n) s)) = a + n.
Proof.
  induction n as [|n IH]; intros a s Ha; simpl; [lia|].
  rewrite IH.
  - lia.
  - unfold stage, spec_stage. simpl. rewrite length_app. simpl. lia.
Qed.




End BlockCount.



(** ** The numeric type of the Brownian increment *)

(** C6 (as amended): on a non-empty state, line 54 returns one increment per
    pair of blocks of [bm(t0 + dt)] and [bm(t0)], and every one of them has
    the numeric type (dtype and device) of the first state block [y0[0]],
    whatever its own block index. *)
Theorem increments_take_type_of_first_block :
  forall (T : Torch) (NT : Type) (type_of : tensor -> NT),
    (forall x other, type_of (to x other) = type_of other) ->
    forall (self : SRKAdditive) (t0 : scalar) (y : tensor)
           (ys : list tensor) (dt : scalar) (w : world),
    exists I_k w',
      brownian_increment self t0 (y :: ys) dt w = (Ok I_k, w') /\
      length I_k =
        Nat.min (length (bm self (sadd t0 dt))) (length (bm self t0)) /\
      Forall (fun x => type_of x = type_of y) I_k.
Proof.
  intros T NT type_of Hto self t0 y ys dt w.
  eexists _, _. split; [apply brownian_increment_run|]. split.
  - now rewrite length_map, length_combine.
  - apply Forall_map, Forall_forall. intros [n c] _. apply Hto.
Qed.

Lemma increments_take_type_of_first_block_witness :
  exists I_k w',
    @brownian_increment TypedTorch typed_solver 0%R mixed_state 1%R
       (@Build_world TypedTorch [] []) = (Ok I_k, w') /\
    length I_k = Nat.min 2 2 /\
    Forall (fun x => numeric_type x = (float32, cpu)) I_k.
Proof.
  apply (increments_take_type_of_first_block TypedTorch (dtype * device)
           numeric_type (fun x other => eq_refl) typed_solver 0%R
           {| t_dtype := float32; t_device := cpu; t_value := 0%R |}
           [ {| t_dtype := float64; t_device := cpu; t_value := 0%R |} ]
           1%R (@Build_world TypedTorch [] [])).
Defined.

(** C6 as stated fails: with a float32 block followed by a float64 block,
    the increment of the second block is float32, the type of [y0[0]], not
    the float64 of [y0[1]]. *)
Lemma increment_type_differs_from_its_block :
  exists I_k w' x y,
    @brownian_increment TypedTorch typed_solver 0%R mixed_state 1%R
       (@Build_world TypedTorch [] []) = (Ok I_k, w') /\
    nth_error I_k 1 = Some x /\
    nth_error mixed_state 1 = Some y /\
    numeric_type x <> numeric_type y.
Proof.
  eexists _, _, _, _. split; [reflexivity|].
  split; [reflexivity|]. split; [reflexivity|].
  discriminate.
Qed.

(** * Further properties of [__init__] and [step] *)

(** ** The option mapping and the random generator *)

Lemma init_trapezoidal {T : Torch} f g b (opts : list (string * bool)) :
  lookup "trapezoidal_approx" opts <> Some false ->
  trapezoidal_approx (init f g b opts) = true.
Proof.
  intros H. unfold init. simpl.
  destruct (lookup "trapezoidal_approx" opts) as [[|]|];
    [reflexivity | congruence | reflexivity].
Qed.

Lemma init_gaussian {T : Torch} f g b (opts : list (string * bool)) :
  lookup "trapezoidal_approx" opts = Some false ->
  trapezoidal_approx (init f g b opts) = false.
Proof. intros H. unfold init. simpl. now rewrite H. Qed.

(** The integrals in Gaussian-surrogate mode, with the generator they
    leave. *)
Lemma stochastic_integrals_gaussian {T : Torch} cta (self : SRKAdditive)
    (t0 : scalar) (y : tensor) (ys : list tensor) (dt : scalar) (w : world) :
  trapezoidal_approx self = false ->
  exists I_k I_k0 w1,
    stochastic_integrals cta self t0 (y :: ys) dt w = (Ok (I_k, I_k0), w1) /\
    length I_k =
      Nat.min (length (bm self (sadd t0 dt))) (length (bm self t0)) /\
    gen w1 = snd (normal_draws I_k (gen w)).
Proof.
  intros Hmode. unfold stochastic_integrals.
  rewrite (bind_ok _ (brownian_increment_run self t0 dt y ys w)).
  set (I_k := map _ _).
  unfold second_integral. rewrite Hmode.
  rewrite (bind_ok _ (gaussian_run dt (ssqrt dt) I_k _)).
  eexists I_k, _, _. split; [reflexivity|]. split.
  - unfold I_k. now rewrite length_map, length_combine.
  - reflexivity.
Qed.

(** X1: a solver built by [__init__] from an option mapping that has no
    ["trapezoidal_approx"] entry, or a true one, never touches the random
    generator in [step]: whatever the arguments and the outcome, the
    generator is left as it was and the outcome is the same from any
    generator state. *)
Theorem default_options_never_draw :
  forall (T : Torch) cta (tab : tableau) f g b (opts : list (string * bool))
         (t0 : scalar) (y0 : list tensor) (dt : scalar) (w1 w2 : world),
    lookup "trapezoidal_approx" opts <> Some false ->
    fst (step cta tab (init f g b opts) t0 y0 dt w1) =
      fst (step cta tab (init f g b opts) t0 y0 dt w2) /\
    gen (snd (step cta tab (init f g b opts) t0 y0 dt w1)) = gen w1.
Proof.
  intros T cta tab f g b opts t0 y0 dt w1 w2 Hopt.
  apply step_trapezoidal_generator_free, init_trapezoidal, Hopt.
Qed.

Lemma default_options_never_draw_witness :
  let self := real_solver linear_drift constant_diffusion
                [("adaptive"%string, false)] in
  fst (@step RealTorch one_panel sra1 self 0%R [1%R] 1%R
         (real_world [0%R; 1%R])) =
    fst (@step RealTorch one_panel sra1 self 0%R [1%R] 1%R
           (real_world [])) /\
  gen (snd (@step RealTorch one_panel sra1 self 0%R [1%R] 1%R
              (real_world [0%R; 1%R]))) = [0%R; 1%R].
Proof.
  apply (default_options_never_draw RealTorch one_panel sra1 linear_drift
           constant_diffusion ramp_path [("adaptive"%string, false)]
           0%R [1%R] 1%R (real_world [0%R; 1%R]) (real_world [])).
  discriminate.
Defined.

(** X2: a solver built from an option mapping whose ["trapezoidal_approx"]
    entry is false draws, in a step on a positive step size and a non-empty
    state, one sample per block of the Brownian increment and nothing else:
    the increment has as many blocks as the shorter of [bm(t0 + dt)] and
    [bm(t0)], and the generator after the step is the one left by these
    draws. *)
Theorem gaussian_option_draws_once_per_block :
  forall (T : Torch) cta (tab : tableau) f g b (opts : list (string * bool))
         (t0 : scalar) (y0 : list tensor) (dt : scalar) (w : world),
    lookup "trapezoidal_approx" opts = Some false ->
    sgt dt (lit 0) = true ->
    tableau_wf tab ->
    y0 <> [] ->
    exists I_k,
      length I_k = Nat.min (length (b (sadd t0 dt))) (length (b t0)) /\
      length (fst (normal_draws I_k (gen w))) = length I_k /\
      gen (snd (step cta tab (init f g b opts) t0 y0 dt w)) =
        snd (normal_draws I_k (gen w)).
Proof.
  intros T cta tab f g b opts t0 y0 dt w Hopt Hdt Hwf Hy.
  destruct y0 as [|y ys]; [congruence|].
  destruct (stochastic_integrals_gaussian cta (init f g b opts) t0 y ys dt w
              (init_gaussian f g b opts Hopt))
    as (I_k & I_k0 & w1 & Hint & Hlen & Hgen).
  exists I_k. split; [exact Hlen|]. split; [apply normal_draws_length|].
  rewrite (step_run cta tab (init f g b opts) t0 dt (y :: ys) w I_k I_k0 w1
             Hwf Hdt Hint).
  exact Hgen.
Qed.

Lemma gaussian_option_draws_once_per_block_witness :
  exists I_k : list R,
    length I_k = Nat.min 1 1 /\
    length (fst (@normal_draws RealTorch I_k [0%R; 1%R])) = length I_k /\
    gen (snd (@step RealTorch one_panel sra1
                (real_solver linear_drift constant_diffusion
                   gaussian_options) 0%R [1%R] 1%R
                (real_world [0%R; 1%R]))) =
      snd (@normal_draws RealTorch I_k [0%R; 1%R]).
Proof.
  apply (gaussian_option_draws_once_per_block RealTorch one_panel sra1
           linear_drift constant_diffusion ramp_path gaussian_options
           0%R [1%R] 1%R (real_world [0%R; 1%R])).
  - reflexivity.
  - apply Rgtb_pos. lra.
  - apply sra1_wf.
  - discriminate.
Defined.

(** ** A single stage *)

Lemma one_stage_wf {T : Torch} : tableau_wf one_stage.
Proof. constructor; simpl; try lia; intros i j Hj Hi; lia. Qed.

(** X3: with a one-stage tableau the loop over [j] never runs and [step] is
    one Euler-Maruyama-like update from [y0]: it calls the drift once and
    the diffusion once, both at [y0], and returns
    [y0 + alpha[0]*f*dt + g applied to (beta1[0]*I_k + beta2[0]*I_k0/dt)]
    per block. *)
Theorem single_stage_is_euler_maruyama :
  forall (T : Torch) cta (tab : tableau) (self : SRKAdditive)
         (t0 : scalar) (y0 : list tensor) (dt : scalar)
         (w : world) (I_k I_k0 : list tensor) (w1 : world),
    STAGES tab = 1 ->
    tableau_wf tab ->
    sgt dt (lit 0) = true ->
    stochastic_integrals cta self t0 y0 dt w = (Ok (I_k, I_k0), w1) ->
    step cta tab self t0 y0 dt w =
    (Ok (sadd t0 dt,
         euler_maruyama (sde_f self) (sde_g self) tab t0 y0 dt I_k I_k0),
     emit [EvF (sadd t0 (smul (coef (C0 tab) 0) dt)) y0;
           EvG (sadd t0 (smul (coef (C1 tab) 0) dt)) y0] w1).
Proof.
  intros T cta tab self t0 y0 dt w I_k I_k0 w1 HS Hwf Hdt Hint.
  rewrite (step_run cta tab self t0 dt y0 w I_k I_k0 w1 Hwf Hdt Hint).
  unfold compute_step, spec_loop. rewrite HS. reflexivity.
Qed.

Lemma single_stage_is_euler_maruyama_witness :
  @step RealTorch one_panel one_stage
     (real_solver linear_drift constant_diffusion []) 0%R [1%R] 1%R
     (real_world []) =
  (Ok ((0 + 1)%R,
       @euler_maruyama RealTorch linear_drift constant_diffusion one_stage
          0%R [1%R] 1%R [(0 + 1 - 0)%R] [(1 / 2 * (0 + 1 - 0))%R]),
   emit [@EvF RealTorch (0 + Q2R 0 * 1)%R [1%R];
         @EvG RealTorch (0 + Q2R 0 * 1)%R [1%R]]
     (emit [@EvBm RealTorch (0 + 1)%R; @EvBm RealTorch 0%R]
        (real_world []))).
Proof.
  apply (single_stage_is_euler_maruyama RealTorch one_panel one_stage
           (real_solver linear_drift constant_diffusion []) 0%R [1%R] 1%R
           (real_world []) [(0 + 1 - 0)%R] [(1 / 2 * (0 + 1 - 0))%R]).
  - reflexivity.
  - apply one_stage_wf.
  - apply Rgtb_pos. lra.
  - reflexivity.
Defined.

(** ** The empty state *)

Lemma brownian_increment_fails {T : Torch} (self : SRKAdditive)
    (t0 dt : scalar) (w : world) :
  combine (bm self (sadd t0 dt)) (bm self t0) <> [] ->
  brownian_increment self t0 [] dt w =
  (Raise IndexError, emit [EvBm (sadd t0 dt); EvBm t0] w).
Proof.
  intros Hne. unfold brownian_increment.
  rewrite (bind_ok _ (call_bm_run _ _ _)).
  rewrite (bind_ok _ (call_bm_run _ _ _)).
  rewrite emit_emit. simpl app.
  destruct (combine _ _) as [|[n c] rest]; [congruence|].
  reflexivity.
Qed.

Lemma stochastic_integrals_none {T : Torch} cta (self : SRKAdditive)
    (t0 : scalar) (y0 : list tensor) (dt : scalar) (w : world) :
  combine (bm self (sadd t0 dt)) (bm self t0) = [] ->
  exists I_k0 w1,
    stochastic_integrals cta self t0 y0 dt w = (Ok ([], I_k0), w1).
Proof.
  intros Hnone. unfold stochastic_integrals.
  rewrite (bind_ok _ (brownian_increment_none self t0 dt y0 w Hnone)).
  unfold second_integral.
  destruct (trapezoidal_approx self); eexists _, _; reflexivity.
Qed.

(** X4: the subscripts of [step].  Provided the tensor operations and the
    collaborators return normally (they are total here; an exception of
    theirs would propagate), on a positive step size and a well-shaped
    tableau the only subscript of [step] that can go out of range is
    [y0[0]] on line 54: [H0[j]], [C0[j]], [A0[i][j]] and the others never
    do.  So [step] returns a result whenever the state is non-empty or the
    two answers of the Brownian source have no common block; on an empty
    state with an increment to convert it raises [IndexError] right after
    the two queries of line 54, before any call of the drift or the
    diffusion and before any draw. *)
Theorem step_fails_only_on_empty_state :
  forall (T : Torch) cta (tab : tableau) (self : SRKAdditive)
         (t0 : scalar) (y0 : list tensor) (dt : scalar) (w : world),
    sgt dt (lit 0) = true ->
    tableau_wf tab ->
    (y0 <> [] \/ combine (bm self (sadd t0 dt)) (bm self t0) = [] ->
     exists r w', step cta tab self t0 y0 dt w = (Ok r, w')) /\
    (y0 = [] -> combine (bm self (sadd t0 dt)) (bm self t0) <> [] ->
     step cta tab self t0 y0 dt w =
     (Raise IndexError, emit [EvBm (sadd t0 dt); EvBm t0] w)).
Proof.
  intros T cta tab self t0 y0 dt w Hdt Hwf. split.
  - intros Hcase.
    assert (exists I_k I_k0 w1,
               stochastic_integrals cta self t0 y0 dt w =
               (Ok (I_k, I_k0), w1)) as (I_k & I_k0 & w1 & Hint).
    { destruct Hcase as [Hy|Hnone].
      - destruct (stochastic_integrals_ok cta self t0 dt y0 w Hy)
          as (I_k & I_k0 & w1 & Hint & _). now exists I_k, I_k0, w1.
      - destruct (stochastic_integrals_none cta self t0 y0 dt w Hnone)
          as (I_k0 & w1 & Hint). now exists [], I_k0, w1. }
    rewrite (step_run cta tab self t0 dt y0 w I_k I_k0 w1 Hwf Hdt Hint).
    eexists _, _. reflexivity.
  - intros -> Hne. unfold step. rewrite Hdt.
    unfold assert. rewrite (bind_ok (w := w) (a := tt) (w' := w) _ eq_refl).
    apply bind_raise. unfold stochastic_integrals.
    apply bind_raise. apply brownian_increment_fails, Hne.
Qed.

Lemma step_fails_only_on_empty_state_witness :
  (exists r w',
      @step RealTorch one_panel sra1
         (real_solver_on empty_path linear_drift constant_diffusion [])
         0%R [] 1%R (real_world []) = (Ok r, w')) /\
  @step RealTorch one_panel sra1
     (real_solver linear_drift constant_diffusion []) 0%R [] 1%R
     (real_world []) =
  (Raise IndexError,
   emit [@EvBm RealTorch (0 + 1)%R; @EvBm RealTorch 0%R] (real_world [])).
Proof.
  split.
  - apply (proj1 (step_fails_only_on_empty_state RealTorch one_panel sra1
             (real_solver_on empty_path linear_drift constant_diffusion [])
             0%R [] 1%R (real_world [])
             (Rgtb_pos 1 Rlt_0_1) sra1_wf)).
    right. reflexivity.
  - apply (proj2 (step_fails_only_on_empty_state RealTorch one_panel sra1
             (real_solver linear_drift constant_diffusion [])
             0%R [] 1%R (real_world [])
             (Rgtb_pos 1 Rlt_0_1) sra1_wf)).
    + reflexivity.
    + discriminate.
Defined.

(** ** How many blocks the new state has *)

Lemma fold_left_invariant {A B} (P : A -> Prop) (f : A -> B -> A)
    (l : list B) :
  (forall a x, In x l -> P a -> P (f a x)) ->
  forall a, P a -> P (fold_left f l a).
Proof.
  induction l as [|x l IH]; intros Hf a Ha; simpl; [exact Ha|].
  apply IH.
  - intros a' x' Hx'. apply Hf. now right.
  - apply Hf; [now left | exact Ha].
Qed.

Section Blocks.

Context {T : Torch}.

Variable f : scalar -> list tensor -> list tensor.
Variable g : scalar -> list tensor -> list operator.
Variable tab : tableau.
Variables (t0 : scalar) (y0 : list tensor) (dt : scalar).
Variables (I_k I_k0 : list tensor).

Let stage := spec_stage f g tab t0 y0 dt I_k I_k0.

Lemma stage_blocks_le s i :
  length (snd (stage s i)) <= length (snd s) /\
  length (snd (stage s i)) <= length I_k /\
  length (snd (stage s i)) <= length I_k0.
Proof.
  unfold stage, spec_stage, spec_g_weight, zip4. simpl.
  rewrite !length_map, !length_combine, length_map, length_combine. lia.
Qed.

Lemma loop_blocks_le l : forall s,
  length (snd (fold_left stage l s)) <= length (snd s).
Proof.
  induction l as [|i l IH]; intros s; simpl; [lia|].
  etransitivity; [apply IH | apply stage_blocks_le].
Qed.

Lemma loop_blocks_le_increment :
  0 < STAGES tab ->
  length (snd (spec_loop f g tab t0 y0 dt I_k I_k0)) <= length I_k /\
  length (snd (spec_loop f g tab t0 y0 dt I_k I_k0)) <= length I_k0.
Proof.
  intros HS. unfold spec_loop.
  destruct (STAGES tab) as [|n]; [lia|].
  rewrite seq_S, fold_left_app. simpl.
  split; apply stage_blocks_le.
Qed.

Hypothesis f_blocks : forall t y, length (f t y) = length y.
Hypothesis g_blocks : forall t, length (g t y0) = length y0.
Hypothesis I_k_blocks : length I_k = length y0.
Hypothesis I_k0_blocks : length I_k0 = length y0.

Lemma couple_shaped H0 i H0i j :
  Forall (fun h => length h = length y0) H0 -> j < length H0 ->
  length H0i = length y0 ->
  length (spec_couple f g tab t0 y0 dt I_k0 H0 i H0i j) = length y0.
Proof.
  intros HH Hj Hi. unfold spec_couple, drift_at, diffusion_at, zip4.
  rewrite length_map, !length_combine, f_blocks, g_blocks.
  assert (length (nth j H0 []) = length y0)
    by (apply (proj1 (Forall_forall _ _) HH), nth_In, Hj).
  lia.
Qed.

Lemma stage_shaped a s : shaped y0 a s -> shaped y0 (S a) (stage s a).
Proof.
  intros (Ha & HH & Hy).
  assert (Hv : length (spec_stage_value f g tab t0 y0 dt I_k0 (fst s) a) =
               length y0).
  { unfold spec_stage_value.
    apply fold_left_invariant with (P := fun h => length h = length y0);
      [|reflexivity].
    intros h j Hj Hh. apply in_seq in Hj.
    apply couple_shaped; [exact HH | lia | exact Hh]. }
  unfold stage, spec_stage. split; [|split]; simpl.
  - rewrite length_app. simpl. lia.
  - apply Forall_app. split; [exact HH|]. now constructor.
  - unfold diffusion_at, spec_g_weight, zip4.
    rewrite length_map, !length_combine, length_map, length_combine.
    rewrite f_blocks, g_blocks, Hv. lia.
Qed.

Lemma loop_shaped n : forall a s,
  shaped y0 a s -> shaped y0 (a + n) (fold_left stage (seq a n) s).
Proof.
  induction n as [|n IH]; intros a s Hs; simpl.
  - now rewrite Nat.add_0_r.
  - rewrite <- Nat.add_succ_comm. apply IH, stage_shaped, Hs.
Qed.

Lemma spec_loop_shaped :
  length (snd (spec_loop f g tab t0 y0 dt I_k I_k0)) = length y0.
Proof.
  unfold spec_loop.
  apply (loop_shaped (STAGES tab) 0 ([], y0)).
  split; [reflexivity | split; [constructor | reflexivity]].
Qed.

End Blocks.

(** X5: a step never adds a block.  On a positive step size, given the
    integrals of lines 52-58, the returned state has at most as many blocks
    as [y0], and, when the tableau has a stage, at most as many as [I_k] and
    as [I_k0]: a Brownian source with fewer blocks than the state shortens
    the state without any error. *)
Theorem step_never_adds_blocks :
  forall (T : Torch) cta (tab : tableau) (self : SRKAdditive)
         (t0 : scalar) (y0 : list tensor) (dt : scalar)
         (w : world) (I_k I_k0 : list tensor) (w1 : world),
    sgt dt (lit 0) = true ->
    tableau_wf tab ->
    stochastic_integrals cta self t0 y0 dt w = (Ok (I_k, I_k0), w1) ->
    exists y1 w',
      step cta tab self t0 y0 dt w = (Ok (sadd t0 dt, y1), w') /\
      length y1 <= length y0 /\
      (STAGES tab = 0 \/
       length y1 <= length I_k /\ length y1 <= length I_k0).
Proof.
  intros T cta tab self t0 y0 dt w I_k I_k0 w1 Hdt Hwf Hint.
  rewrite (step_run cta tab self t0 dt y0 w I_k I_k0 w1 Hwf Hdt Hint).
  unfold compute_step. eexists _, _. split; [reflexivity|]. split.
  - apply (loop_blocks_le (sde_f self) (sde_g self) tab t0 y0 dt I_k I_k0
             (seq 0 (STAGES tab)) ([], y0)).
  - destruct (Nat.eq_dec (STAGES tab) 0) as [HS|HS]; [now left | right].
    apply loop_blocks_le_increment. lia.
Qed.

Lemma step_never_adds_blocks_witness :
  exists (y1 : list R) (w' : @world RealTorch),
    @step RealTorch one_panel sra1
       (real_solver_on empty_path linear_drift constant_diffusion [])
       0%R [1%R] 1%R (real_world []) = (Ok ((0 + 1)%R, y1), w') /\
    length y1 <= length [1%R] /\
    (2 = 0 \/
     length y1 <= length (@nil R) /\ length y1 <= length (@nil R)).
Proof.
  apply (step_never_adds_blocks RealTorch one_panel sra1
           (real_solver_on empty_path linear_drift constant_diffusion [])
           0%R [1%R] 1%R (real_world []) [] []
           (emit [@EvBm RealTorch (0 + 1)%R; @EvBm RealTorch 0%R]
              (real_world []))).
  - apply Rgtb_pos. lra.
  - apply sra1_wf.
  - reflexivity.
Defined.

(** X6: a step keeps the block count when its collaborators do.  If the
    drift returns one block per block of its argument, and the diffusion at
    [y0], the Brownian source and the trapezoidal rule return one block per
    block of [y0], then on a positive step size [step] returns a state with
    exactly the blocks of [y0], for any number of stages. *)
Theorem step_preserves_block_count :
  forall (T : Torch) cta (tab : tableau) (self : SRKAdditive)
         (t0 : scalar) (y0 : list tensor) (dt : scalar) (w : world),
    sgt dt (lit 0) = true ->
    tableau_wf tab ->
    (forall t y, length (sde_f self t y) = length y) ->
    (forall t, length (sde_g self t y0) = length y0) ->
    (forall t, length (bm self t) = length y0) ->
    length (cta (bm self) t0 y0 dt (ssqrt dt)) = length y0 ->
    exists y1 w',
      step cta tab self t0 y0 dt w = (Ok (sadd t0 dt, y1), w') /\
      length y1 = length y0.
Proof.
  intros T cta tab self t0 y0 dt w Hdt Hwf Hf Hg Hbm Hcta.
  destruct (stochastic_integrals_blocks cta self t0 y0 dt w Hbm Hcta)
    as (I_k & I_k0 & w1 & Hint & HI & HI0).
  rewrite (step_run cta tab self t0 dt y0 w I_k I_k0 w1 Hwf Hdt Hint).
  unfold compute_step. eexists _, _. split; [reflexivity|].
  apply spec_loop_shaped; assumption.
Qed.

Lemma step_preserves_block_count_witness :
  exists (y1 : list R) (w' : @world RealTorch),
    @step RealTorch one_panel sra1
       (real_solver linear_drift constant_diffusion gaussian_options)
       0%R [1%R] 1%R (real_world [0%R]) = (Ok ((0 + 1)%R, y1), w') /\
    length y1 = length [1%R].
Proof.
  apply (step_preserves_block_count RealTorch one_panel sra1
           (real_solver linear_drift constant_diffusion gaussian_options)
           0%R [1%R] 1%R (real_world [0%R])).
  - apply Rgtb_pos. lra.
  - apply sra1_wf.
  - reflexivity.
  - reflexivity.
  - reflexivity.
  - reflexivity.
Defined.

(** ** The times at which the drift and the diffusion are called *)

Lemma cs_bind_index {T : Torch} (P : event -> Prop) {A B} (l : list A) i
    (k : A -> M B) :
  (forall a, In a l -> calls_satisfy P (k a)) ->
  calls_satisfy P (bind (index l i) k).
Proof.
  intros Hk w Hw. unfold bind, index.
  destruct (nth_error l i) as [a|] eqn:E; simpl.
  - apply (Hk a (nth_error_In _ _ E)), Hw.
  - exact Hw.
Qed.

Ltac node_step :=
  match goal with
  | |- calls_satisfy _ (bind (index (C0 _) _) _) =>
      apply cs_bind_index; intros ? ?
  | |- calls_satisfy _ (bind (index (C1 _) _) _) =>
      apply cs_bind_index; intros ? ?
  | |- calls_satisfy _ (bind _ _) => apply cs_bind; [|intros]
  | |- calls_satisfy _ (mapM _ _) => apply cs_mapM; intros
  | |- calls_satisfy _ (foldM _ _ _) => apply cs_foldM; intros
  | |- calls_satisfy _ (log (EvBm _)) => apply cs_log; exact I
  | |- calls_satisfy _ (log _) =>
      apply cs_log; simpl; eexists; split; [eassumption | reflexivity]
  | |- calls_satisfy _ (let '(_, _) := ?x in _) => destruct x
  | |- calls_satisfy _ (if ?c then _ else _) => destruct c
  | |- calls_satisfy _ _ => solve [auto with calls]
  end.

Lemma step_calls_at_nodes {T : Torch} cta (tab : tableau)
    (self : SRKAdditive) (t0 : scalar) (y0 : list tensor) (dt : scalar) :
  calls_satisfy (at_tableau_node tab t0 dt) (step cta tab self t0 y0 dt).
Proof.
  unfold step, stochastic_integrals, brownian_increment, second_integral,
    stage_loop, stage_body, coupling_body, call_f, call_g, call_bm.
  repeat node_step.
Qed.

(** X7: whatever its arguments and however far it gets, [step] calls the
    drift only at times [t0 + c*dt] with [c] an entry of [C0] and the
    diffusion only at times [t0 + c*dt] with [c] an entry of [C1]. *)
Theorem step_calls_only_at_tableau_nodes :
  forall (T : Torch) cta (tab : tableau) (self : SRKAdditive)
         (t0 : scalar) (y0 : list tensor) (dt : scalar) (r : rng),
    Forall (at_tableau_node tab t0 dt)
      (trace (snd (step cta tab self t0 y0 dt {| trace := []; gen := r |}))).
Proof.
  intros T cta tab self t0 y0 dt r.
  apply (step_calls_at_nodes cta tab self t0 y0 dt). constructor.
Qed.

(** ** A steady state *)

(** In a [zip] of four sequences the body can be dropped altogether when it
    returns the element of the first sequence. *)
Lemma zip4_keep {A B C D} (F : A * (B * (C * D)) -> A)
    (Pb : B -> Prop) (Pc : C -> Prop) :
  (forall x y z u, Pb y -> Pc z -> F (x, (y, (z, u))) = x) ->
  forall (a : list A) (b : list B) (c : list C) (d : list D),
    length a <= length b -> length a <= length c -> length a <= length d ->
    Forall Pb b -> Forall Pc c ->
    map F (zip4 a b c d) = a.
Proof.
  intros HF. unfold zip4.
  induction a as [|x a IH]; intros b c d Hb Hc Hd HPb HPc; [reflexivity|].
  destruct b as [|y b]; [simpl in Hb; lia|].
  destruct c as [|z c]; [simpl in Hc; lia|].
  destruct d as [|u d]; [simpl in Hd; lia|].
  inversion HPb as [|? ? Hy HPb']; subst.
  inversion HPc as [|? ? Hz HPc']; subst. simpl in *.
  rewrite (HF x y z u Hy Hz). f_equal.
  apply IH; [lia | lia | lia | exact HPb' | exact HPc'].
Qed.

Section SteadyState.

Context {T : Torch}.

Variable f : scalar -> list tensor -> list tensor.
Variable g : scalar -> list tensor -> list operator.
Variable tab : tableau.
Variables (t0 : scalar) (y0 : list tensor) (dt : scalar).
Variables (I_k I_k0 : list tensor).
Variable zero : tensor.

Hypothesis add_zero : forall x, tadd x zero = x.
Hypothesis scale_l_zero : forall a, scale_l a zero = zero.
Hypothesis scale_r_zero : forall a, scale_r zero a = zero.
Hypothesis div_zero : forall a, tdiv zero a = zero.
Hypothesis f_zero : forall t, f t y0 = map (fun _ => zero) y0.
Hypothesis g_zero : forall t, Forall (zero_operator zero) (g t y0).
Hypothesis g_blocks : forall t, length (g t y0) = length y0.
Hypothesis I_k_blocks : length I_k = length y0.
Hypothesis I_k0_blocks : length I_k0 = length y0.

Let stage := spec_stage f g tab t0 y0 dt I_k I_k0.

Lemma f_zero_blocks t :
  length (f t y0) = length y0 /\ Forall (eq zero) (f t y0).
Proof.
  rewrite f_zero. split; [apply length_map|].
  apply Forall_map, Forall_forall. reflexivity.
Qed.

Lemma couple_steady H0 i j :
  nth j H0 [] = y0 ->
  spec_couple f g tab t0 y0 dt I_k0 H0 i y0 j = y0.
Proof.
  intros Hj. unfold spec_couple, drift_at, diffusion_at. rewrite Hj.
  destruct (f_zero_blocks (sadd t0 (smul (coef (C0 tab) j) dt)))
    as [Hlen Hall].
  apply zip4_keep with (Pb := eq zero) (Pc := zero_operator zero).
  - intros h f_ g_ k0 <- Hz.
    now rewrite Hz, scale_l_zero, scale_r_zero, scale_l_zero, div_zero,
      !add_zero.
  - lia.
  - rewrite g_blocks. lia.
  - lia.
  - exact Hall.
  - apply g_zero.
Qed.

Lemma stage_value_steady H0 i :
  i <= length H0 -> Forall (eq y0) H0 ->
  spec_stage_value f g tab t0 y0 dt I_k0 H0 i = y0.
Proof.
  intros Hi HH. unfold spec_stage_value.
  apply fold_left_invariant with (P := fun h => h = y0); [|reflexivity].
  intros h j Hj ->. apply in_seq in Hj.
  apply couple_steady. symmetry.
  apply (proj1 (Forall_forall _ _) HH), nth_In. lia.
Qed.

Lemma stage_steady a H0 :
  length H0 = a -> Forall (eq y0) H0 ->
  stage (H0, y0) a = (H0 ++ [y0], y0).
Proof.
  intros Ha HH. unfold stage, spec_stage. simpl fst. simpl snd.
  rewrite stage_value_steady by (try lia; exact HH).
  f_equal.
  destruct (f_zero_blocks (sadd t0 (smul (coef (C0 tab) a) dt)))
    as [Hlen Hall].
  apply zip4_keep with (Pb := eq zero) (Pc := zero_operator zero).
  - intros y f_ g_ w_ <- Hz.
    now rewrite Hz, scale_l_zero, scale_r_zero, !add_zero.
  - lia.
  - unfold diffusion_at. rewrite g_blocks. lia.
  - unfold spec_g_weight. rewrite length_map, length_combine. lia.
  - exact Hall.
  - apply g_zero.
Qed.

Lemma loop_steady n : forall a H0,
  length H0 = a -> Forall (eq y0) H0 ->
  snd (fold_left stage (seq a n) (H0, y0)) = y0.
Proof.
  induction n as [|n IH]; intros a H0 Ha HH; simpl; [reflexivity|].
  rewrite (stage_steady a H0 Ha HH).
  apply IH.
  - rewrite length_app. simpl. lia.
  - apply Forall_app. split; [exact HH | now constructor].
Qed.

Lemma compute_step_steady :
  compute_step f g tab t0 y0 dt I_k I_k0 = (sadd t0 dt, y0).
Proof.
  unfold compute_step, spec_loop. f_equal.
  apply (loop_steady (STAGES tab) 0 []); [reflexivity | constructor].
Qed.

End SteadyState.

(** X9: a state at which the drift is zero and the diffusion a zero operator
    at all times is a fixed point of the scheme.  With exact arithmetic on
    the zero tensor and one block per state block from the diffusion, the
    Brownian source and the trapezoidal rule, a step on a positive step size
    returns [y0] itself, whatever the Brownian increments, the mode and the
    stage count. *)
Theorem steady_state_is_kept :
  forall (T : Torch) cta (tab : tableau) (self : SRKAdditive)
         (t0 : scalar) (y0 : list tensor) (dt : scalar) (w : world)
         (zero : tensor),
    (forall x, tadd x zero = x) ->
    (forall a, scale_l a zero = zero) ->
    (forall a, scale_r zero a = zero) ->
    (forall a, tdiv zero a = zero) ->
    (forall t, sde_f self t y0 = map (fun _ => zero) y0) ->
    (forall t, Forall (zero_operator zero) (sde_g self t y0)) ->
    (forall t, length (sde_g self t y0) = length y0) ->
    (forall t, length (bm self t) = length y0) ->
    length (cta (bm self) t0 y0 dt (ssqrt dt)) = length y0 ->
    sgt dt (lit 0) = true ->
    tableau_wf tab ->
    fst (step cta tab self t0 y0 dt w) = Ok (sadd t0 dt, y0).
Proof.
  intros T cta tab self t0 y0 dt w zero Hadd Hsl Hsr Hdiv Hf Hzero Hg Hbm
    Hcta Hdt Hwf.
  destruct (stochastic_integrals_blocks cta self t0 y0 dt w Hbm Hcta)
    as (I_k & I_k0 & w1 & Hint & HI & HI0).
  rewrite (step_run cta tab self t0 dt y0 w I_k I_k0 w1 Hwf Hdt Hint).
  simpl fst. f_equal.
  apply compute_step_steady with (zero := zero); assumption.
Qed.

Lemma steady_state_is_kept_witness :
  fst (@step RealTorch one_panel sra1
         (real_solver zero_drift zero_diffusion gaussian_options)
         0%R [1%R] 1%R (real_world [0%R; 1%R])) = Ok ((0 + 1)%R, [1%R]).
Proof.
  apply (steady_state_is_kept RealTorch one_panel sra1
           (real_solver zero_drift zero_diffusion gaussian_options)
           0%R [1%R] 1%R (real_world [0%R; 1%R]) 0%R).
  - intros x. simpl. lra.
  - intros a. simpl. lra.
  - intros a. simpl. lra.
  - intros a. simpl. unfold Rdiv. lra.
  - reflexivity.
  - intros t. repeat constructor. intros v. simpl. lra.
  - reflexivity.
  - reflexivity.
  - reflexivity.
  - apply Rgtb_pos. lra.
  - apply sra1_wf.
Defined.

(** ** The calls of the coupling loop repeat earlier calls *)

Section NodeCalls.

Context {T : Torch}.

Variable f : scalar -> list tensor -> list tensor.
Variable g : scalar -> list tensor -> list operator.
Variable tab : tableau.
Variables (t0 : scalar) (y0 : list tensor) (dt : scalar).
Variables (I_k I_k0 : list tensor).

Let stage := spec_stage f g tab t0 y0 dt I_k I_k0.
Let events := loop_events f g tab t0 y0 dt I_k I_k0.

(** The call of the drift or of the diffusion for stage [i]. *)
Let node_of (H0 : list (list tensor)) (i : nat) (e : event) : Prop :=
  e = EvF (sadd t0 (smul (coef (C0 tab) i) dt)) (nth i H0 []) \/
  e = EvG (sadd t0 (smul (coef (C1 tab) i) dt)) y0.

Lemma stage_events_nodes H0 more a e :
  length H0 = a ->
  In e (stage_events f g tab t0 y0 dt I_k0 H0 a) ->
  exists i, i < S a /\
    node_of ((H0 ++ [spec_stage_value f g tab t0 y0 dt I_k0 H0 a]) ++ more)
      i e.
Proof.
  intros Ha He. unfold stage_events, coupling_events in He.
  apply in_app_or in He. destruct He as [He|He].
  - apply in_flat_map in He. destruct He as (j & Hj & He).
    apply in_seq in Hj. exists j. split; [lia|]. unfold node_of.
    rewrite <- app_assoc, app_nth1 by lia.
    destruct He as [<-|[<-|[]]]; [now left | now right].
  - exists a. split; [lia|]. unfold node_of.
    rewrite app_nth1 by (rewrite length_app; simpl; lia).
    rewrite app_nth2 by lia. rewrite Ha, Nat.sub_diag.
    destruct He as [<-|[<-|[]]]; [now left | now right].
Qed.

Lemma loop_events_nodes n : forall a s e,
  length (fst s) = a ->
  In e (events (seq a n) s) ->
  exists i, i < a + n /\
    node_of (fst (fold_left stage (seq a n) s)) i e.
Proof.
  induction n as [|n IH]; intros a s e Ha He; simpl in He; [contradiction|].
  simpl fold_left. apply in_app_or in He. destruct He as [He|He].
  - destruct (stages_extend f g tab t0 y0 dt I_k I_k0 (seq (S a) n)
                (stage s a)) as [more E].
    fold stage in E. rewrite E. unfold stage at 1, spec_stage. simpl fst.
    destruct (stage_events_nodes (fst s) more a e Ha He) as (i & Hi & Hn).
    exists i. split; [lia | exact Hn].
  - destruct (IH (S a) (stage s a) e) as (i & Hi & Hn).
    + unfold stage, spec_stage. simpl. rewrite length_app. simpl. lia.
    + exact He.
    + exists i. split; [lia | exact Hn].
Qed.

Lemma loop_events_in_node_calls :
  incl (events (seq 0 (STAGES tab)) ([], y0))
       (node_calls tab t0 y0 dt
          (fst (spec_loop f g tab t0 y0 dt I_k I_k0))).
Proof.
  intros e He.
  destruct (loop_events_nodes (STAGES tab) 0 ([], y0) e eq_refl He)
    as (i & Hi & Hn).
  unfold node_calls. apply in_flat_map. exists i. split.
  - apply in_seq. lia.
  - unfold spec_loop. fold stage.
    destruct Hn as [->| ->]; [now left | right; now left].
Qed.

Lemma node_calls_length H0 :
  length (node_calls tab t0 y0 dt H0) = 2 * STAGES tab.
Proof.
  unfold node_calls.
  assert (Hlen : forall n a,
             length (flat_map
                       (fun i =>
                          [EvF (sadd t0 (smul (coef (C0 tab) i) dt))
                             (nth i H0 []);
                           EvG (sadd t0 (smul (coef (C1 tab) i) dt)) y0])
                       (seq a n)) = 2 * n).
  { induction n as [|n IH]; intros a; simpl; [reflexivity|].
    rewrite IH. lia. }
  apply Hlen.
Qed.

End NodeCalls.

(** X10: on a positive step size and a non-empty state, every call of the
    drift or the diffusion in a step is one of [2*S] calls: the drift at the
    stage value [H0[i]] and time [t0 + C0[i]*dt], the diffusion at [y0] and
    time [t0 + C1[i]*dt], for [i < S].  The calls made in the coupling loop
    over [j] only repeat, with the same arguments, the call already made for
    stage [j]. *)
Theorem step_calls_are_the_stage_calls :
  forall (T : Torch) cta (tab : tableau) (self : SRKAdditive)
         (t0 : scalar) (y0 : list tensor) (dt : scalar) (w : world),
    sgt dt (lit 0) = true ->
    tableau_wf tab ->
    y0 <> [] ->
    exists I_k I_k0 evs,
      trace (snd (step cta tab self t0 y0 dt w)) =
        trace w ++ [EvBm (sadd t0 dt); EvBm t0] ++ evs /\
      incl evs
        (node_calls tab t0 y0 dt
           (fst (spec_loop (sde_f self) (sde_g self) tab t0 y0 dt
                   I_k I_k0))) /\
      length (node_calls tab t0 y0 dt
                (fst (spec_loop (sde_f self) (sde_g self) tab t0 y0 dt
                        I_k I_k0))) = 2 * STAGES tab.
Proof.
  intros T cta tab self t0 y0 dt w Hdt Hwf Hy.
  destruct (stochastic_integrals_ok cta self t0 dt y0 w Hy)
    as (I_k & I_k0 & w1 & Hint & Htr).
  exists I_k, I_k0,
    (loop_events (sde_f self) (sde_g self) tab t0 y0 dt I_k I_k0
       (seq 0 (STAGES tab)) ([], y0)).
  rewrite (step_run cta tab self t0 dt y0 w I_k I_k0 w1 Hwf Hdt Hint).
  split; [|split].
  - simpl. rewrite Htr. now rewrite <- app_assoc.
  - apply loop_events_in_node_calls.
  - apply node_calls_length.
Qed.

Lemma step_calls_are_the_stage_calls_witness :
  exists (I_k I_k0 : list R) (evs : list (@event RealTorch)),
    trace (snd (@step RealTorch one_panel sra1
                  (real_solver linear_drift constant_diffusion []) 0%R
                  [1%R] 1%R (real_world []))) =
      [] ++ [@EvBm RealTorch (0 + 1)%R; @EvBm RealTorch 0%R] ++ evs /\
    incl evs
      (@node_calls RealTorch sra1 0%R [1%R] 1%R
         (fst (@spec_loop RealTorch linear_drift constant_diffusion sra1
                 0%R [1%R] 1%R I_k I_k0))) /\
    length (@node_calls RealTorch sra1 0%R [1%R] 1%R
              (fst (@spec_loop RealTorch linear_drift constant_diffusion
                      sra1 0%R [1%R] 1%R I_k I_k0))) = 2 * 2.
Proof.
  apply (step_calls_are_the_stage_calls RealTorch one_panel sra1
           (real_solver linear_drift constant_diffusion []) 0%R [1%R] 1%R
           (real_world [])).
  - apply Rgtb_pos. lra.
  - apply sra1_wf.
  - discriminate.
Defined.

(** ** Zero drift *)

(** In a [zip] of four sequences the second can be dropped when it is long
    enough and the body does not depend on its elements. *)
Lemma zip4_forget_second {A B C D E} (F : A * (B * (C * D)) -> E)
    (F' : A * (C * D) -> E) (P : B -> Prop) :
  (forall x y z u, P y -> F (x, (y, (z, u))) = F' (x, (z, u))) ->
  forall (a : list A) (b : list B) (c : list C) (d : list D),
    length a <= length b -> Forall P b ->
    map F (zip4 a b c d) = map F' (combine a (combine c d)).
Proof.
  intros HF. unfold zip4.
  induction a as [|x a IH]; intros b c d Hb HP; [reflexivity|].
  destruct b as [|y b]; [simpl in Hb; lia|].
  inversion HP as [|? ? Hy HP']; subst.
  destruct c as [|z c]; [reflexivity|].
  destruct d as [|u d]; [reflexivity|].
  simpl in *. rewrite (HF x y z u Hy). f_equal.
  apply IH; [lia | exact HP'].
Qed.

Section ZeroDrift.

Context {T : Torch}.

Variable f : scalar -> list tensor -> list tensor.
Variable g : scalar -> list tensor -> list operator.
Variable tab : tableau.
Variables (t0 : scalar) (y0 : list tensor) (dt : scalar).
Variables (I_k I_k0 : list tensor).
Variable zero : tensor.

Hypothesis add_zero : forall x, tadd x zero = x.
Hypothesis scale_l_zero : forall a, scale_l a zero = zero.
Hypothesis scale_r_zero : forall a, scale_r zero a = zero.
Hypothesis f_zero : forall t y, f t y = map (fun _ => zero) y.
Hypothesis g_blocks : forall t, length (g t y0) = length y0.
Hypothesis I_k_blocks : length I_k = length y0.
Hypothesis I_k0_blocks : length I_k0 = length y0.

Let stage := spec_stage f g tab t0 y0 dt I_k I_k0.
Let pass := diffusion_pass g tab t0 y0 dt I_k I_k0.

Lemma f_zero_shape t y :
  length (f t y) = length y /\ Forall (eq zero) (f t y).
Proof.
  rewrite f_zero. split; [apply length_map|].
  apply Forall_map, Forall_forall. reflexivity.
Qed.

Lemma stage_zero_drift a s :
  shaped y0 a s ->
  shaped y0 (S a) (stage s a) /\ snd (stage s a) = pass (snd s) a.
Proof.
  intros Hs.
  pose proof (stage_shaped f g tab t0 y0 dt I_k I_k0
                (fun t y => proj1 (f_zero_shape t y))
                g_blocks I_k_blocks I_k0_blocks a s Hs) as Hs'.
  split; [exact Hs'|].
  destruct Hs as (_ & _ & Hy). destruct Hs' as (_ & HH & _).
  unfold stage, spec_stage in HH |- *. simpl fst in HH. simpl snd.
  apply Forall_app in HH. destruct HH as [_ Hv].
  inversion Hv as [|? ? Hlen _]; subst.
  unfold pass, diffusion_pass, diffusion_at, spec_g_weight.
  destruct (f_zero_shape (sadd t0 (smul (coef (C0 tab) a) dt))
              (spec_stage_value f g tab t0 y0 dt I_k0 (fst s) a))
    as [Hfl Hfz].
  apply zip4_forget_second with (P := eq zero).
  - intros y f_ g_ w_ <-. now rewrite scale_l_zero, scale_r_zero, add_zero.
  - lia.
  - exact Hfz.
Qed.

Lemma loop_zero_drift n : forall a s,
  shaped y0 a s ->
  snd (fold_left stage (seq a n) s) = fold_left pass (seq a n) (snd s).
Proof.
  induction n as [|n IH]; intros a s Hs; simpl; [reflexivity|].
  destruct (stage_zero_drift a s Hs) as [Hs' <-].
  apply IH, Hs'.
Qed.

Lemma compute_step_zero_drift :
  compute_step f g tab t0 y0 dt I_k I_k0 =
  (sadd t0 dt, diffusion_update g tab t0 y0 dt I_k I_k0).
Proof.
  unfold compute_step, spec_loop, diffusion_update. f_equal.
  apply (loop_zero_drift (STAGES tab) 0 ([], y0)).
  split; [reflexivity | split; [constructor | reflexivity]].
Qed.

End ZeroDrift.

(** X11: with a drift that is zero in every block, exact arithmetic on the
    zero tensor and one block per state block from the diffusion and the two
    integrals, a step on a positive step size is the purely stochastic
    update: [y0] plus, for every stage, the diffusion at [y0] applied to
    [beta1[i]*I_k + beta2[i]*I_k0/dt].  The value does not involve [A0],
    [B0], [C0], [alpha] or the stage values. *)
Theorem zero_drift_is_diffusion_update :
  forall (T : Torch) cta (tab : tableau) (self : SRKAdditive)
         (t0 : scalar) (y0 : list tensor) (dt : scalar)
         (w : world) (I_k I_k0 : list tensor) (w1 : world) (zero : tensor),
    (forall x, tadd x zero = x) ->
    (forall a, scale_l a zero = zero) ->
    (forall a, scale_r zero a = zero) ->
    (forall t y, sde_f self t y = map (fun _ => zero) y) ->
    (forall t, length (sde_g self t y0) = length y0) ->
    length I_k = length y0 ->
    length I_k0 = length y0 ->
    sgt dt (lit 0) = true ->
    tableau_wf tab ->
    stochastic_integrals cta self t0 y0 dt w = (Ok (I_k, I_k0), w1) ->
    fst (step cta tab self t0 y0 dt w) =
    Ok (sadd t0 dt, diffusion_update (sde_g self) tab t0 y0 dt I_k I_k0).
Proof.
  intros T cta tab self t0 y0 dt w I_k I_k0 w1 zero Hadd Hsl Hsr Hf Hg HI HI0
    Hdt Hwf Hint.
  rewrite (step_run cta tab self t0 dt y0 w I_k I_k0 w1 Hwf Hdt Hint).
  simpl fst. f_equal.
  apply compute_step_zero_drift with (zero := zero); assumption.
Qed.

Lemma zero_drift_is_diffusion_update_witness :
  fst (@step RealTorch one_panel sra1
         (real_solver zero_drift constant_diffusion []) 0%R [1%R] 1%R
         (real_world [])) =
  Ok ((0 + 1)%R,
      @diffusion_update RealTorch constant_diffusion sra1 0%R [1%R] 1%R
         [(0 + 1 - 0)%R] [(1 / 2 * (0 + 1 - 0))%R]).
Proof.
  apply (zero_drift_is_diffusion_update RealTorch one_panel sra1
           (real_solver zero_drift constant_diffusion []) 0%R [1%R] 1%R
           (real_world []) [(0 + 1 - 0)%R] [(1 / 2 * (0 + 1 - 0))%R]
           (emit [@EvBm RealTorch (0 + 1)%R; @EvBm RealTorch 0%R]
              (real_world []))
           0%R).
  - intros x. simpl. lra.
  - intros a. simpl. lra.
  - intros a. simpl. lra.
  - reflexivity.
  - reflexivity.
  - reflexivity.
  - reflexivity.
  - apply Rgtb_pos. lra.
  - apply sra1_wf.
  - reflexivity.
Defined.
